(** * Turtle's Adventure: a shallow embedding of [turtle_adventure.py]

    The game is a single-threaded, timer-driven simulation.  Python [int]
    values are modelled as [Z], Python [float] values as real numbers [R]
    (the idealisation the specification itself refers to when it speaks of
    results "within floating-point tolerance"), exceptions as the [Raise]
    case of a result type, and the random generator as explicit draws that
    are passed to the functions that consume them. *)

From Stdlib Require Import ZArith Reals Lra Lia List String Bool.
Import ListNotations.

Set Implicit Arguments.

(** ** Python runtime: exceptions *)

Inductive PyExc : Set :=
  ValueError | TypeError | IndexError | ZeroDivisionError.

Inductive result (A : Type) : Type :=
| Ok (a : A)
| Raise (e : PyExc).

Arguments Ok {A} a.
Arguments Raise {A} e.

Definition bind {A B : Type} (m : result A) (k : A -> result B) : result B :=
  match m with
  | Ok a => k a
  | Raise e => Raise e
  end.

Notation "x <- m ;; k" := (bind m (fun x => k))
  (at level 61, m at next level, right associativity).

Definition is_ok {A : Type} (m : result A) : bool :=
  match m with Ok _ => true | Raise _ => false end.

(** ** Python runtime: [random.randint]

    [randint a b] returns an integer of the closed range [a..b] and raises
    [ValueError] on an empty range.  The generator's entropy is the explicit
    argument [draw]: every draw yields a value of the range and every value
    of the range is the image of exactly one residue of the draw. *)

Module random.

Definition randint (a b : Z) (draw : Z) : result Z :=
  if (a <=? b)%Z then Ok (a + draw mod (b - a + 1))%Z else Raise ValueError.

End random.

(** ** Python runtime: comparisons and [math] on floats, over [R] *)

Definition Rltb (a b : R) : bool := if Rlt_dec a b then true else false.
Definition Rleb (a b : R) : bool := if Rle_dec a b then true else false.
Definition Rgtb (a b : R) : bool := Rltb b a.

Module math.

Local Open Scope R_scope.

(** [math.atan2 y x]: the angle of the vector [(x, y)], in (-PI, PI];
    [atan2 0 0 = 0]. *)
Definition atan2 (y x : R) : R :=
  match total_order_T x 0 with
  | inleft (left _) => if Rle_dec 0 y then atan (y / x) + PI else atan (y / x) - PI
  | inleft (right _) =>
      match total_order_T y 0 with
      | inleft (left _) => - (PI / 2)
      | inleft (right _) => 0
      | inright _ => PI / 2
      end
  | inright _ => atan (y / x)
  end.

(** Euclidean length of the vector [(dx, dy)], as [abs] of a turtle [Vec2D]
    and as the distance the specification measures. *)
Definition hypot (dx dy : R) : R := sqrt (dx * dx + dy * dy).

End math.

(** ** Data model

    One record per class of the module.  The fields keep the attribute names
    of the source, with a prefix per class.  Coordinates that the code only
    ever computes from [int] values are [Z]; coordinates that involve the
    turtle or trigonometry are [R]. *)

(** [Waypoint]: target coordinates and the private [__active] flag. *)
Record WaypointObj : Type := mkWaypoint {
  wp_x : R;
  wp_y : R;
  wp_active : bool
}.

(** [Home]: [pos] and [size] are [int] in the constructor's signature. *)
Record HomeObj : Type := mkHome {
  home_x : Z;
  home_y : Z;
  home_size : Z
}.

(** [Player]: the position lives in the [RawTurtle] ([xcor], [ycor]), which
    also carries a heading. *)
Record PlayerObj : Type := mkPlayer {
  pl_x : R;
  pl_y : R;
  pl_heading : R;
  pl_speed : R
}.

Record DemoObj : Type := mkDemo {
  de_x : Z;
  de_y : Z;
  de_size : Z;
  de_color : string
}.

(** The bound methods a [RandomWalkEnemy] stores in [xmove] and [ymove]. *)
Inductive XMove : Set := XLeft | XRight.
Inductive YMove : Set := YUp | YDown.

Record RandomWalkObj : Type := mkRandomWalk {
  rw_x : Z;
  rw_y : Z;
  rw_size : Z;
  rw_color : string;
  rw_speed : Z;
  rw_xmove : XMove;
  rw_ymove : YMove
}.

Record ChasingObj : Type := mkChasing {
  ch_x : R;
  ch_y : R;
  ch_size : Z;
  ch_color : string;
  ch_speed : Z;
  ch_speedx : R;
  ch_speedy : R
}.

(** The bound methods a patrol enemy stores in [move]; [None] is the value
    the constructor leaves there until [create] runs. *)
Inductive Leg : Set := LegUp | LegRight | LegDown | LegLeft.

Record FencingObj : Type := mkFencing {
  fe_x : Z;
  fe_y : Z;
  fe_size : Z;
  fe_color : string;
  fe_speed : Z;
  fe_homex : Z;
  fe_homey : Z;
  fe_off_from_home : Z;
  fe_move : option Leg
}.

Record BlockerObj : Type := mkBlocker {
  bl_x : R;
  bl_y : R;
  bl_size : Z;
  bl_color : string;
  bl_speed : Z;
  bl_player_x : R;
  bl_player_y : R;
  bl_off_from_player : Z;
  bl_move : option Leg
}.

(** The enemy classes, as the values stored in [enemies_factory]. *)
Inductive Kind : Set := KDemo | KRandomWalk | KChasing | KFencing | KBlocker.

Inductive EnemyObj : Type :=
| EDemo (e : DemoObj)
| ERandomWalk (e : RandomWalkObj)
| EChasing (e : ChasingObj)
| EFencing (e : FencingObj)
| EBlocker (e : BlockerObj).

(** An entry of the game's element collection.  The three singletons are
    references to the objects the game also holds in its [waypoint], [home]
    and [player] attributes; an enemy is owned by the collection. *)
Inductive Element : Type :=
| ElWaypoint
| ElHome
| ElPlayer
| ElEnemy (e : EnemyObj).

(** The only callback the module ever passes to [after]. *)
Inductive Callback : Set := CbCreateEnemy.

(** A [canvas.create_text] item: the text and its fill colour. *)
Record TextItem : Set := mkText {
  txt_text : string;
  txt_fill : string
}.

Record EnemyGeneratorObj : Set := mkEnemyGenerator {
  eg_level : Z
}.

(** [TurtleAdventureGame], with the state it inherits from [gamelib.Game]
    ([elements], [is_running]), the text items on its canvas and the queue of
    the toolkit's [after] timers with the current time. *)
Record Game : Type := mkGame {
  level : Z;
  screen_width : Z;
  screen_height : Z;
  waypoint : WaypointObj;
  player : PlayerObj;
  home : HomeObj;
  enemies_factory : list Kind;
  enemies_color : list string;
  enemy_generator : option EnemyGeneratorObj;
  elements : list Element;
  is_running : bool;
  canvas_texts : list TextItem;
  clock : Z;
  timers : list (Z * Callback)
}.

(** The random draws one firing of the spawn scheduler consumes: the index
    into the factory list, the draw of the chosen constructor, and the two
    draws of the chosen creation hook. *)
Record Draws : Set := mkDraws {
  d_index : Z;
  d_init : Z;
  d_create1 : Z;
  d_create2 : Z
}.

(** *** Attribute assignment on the game object *)

Definition set_waypoint (g : Game) (w : WaypointObj) : Game :=
  mkGame (level g) (screen_width g) (screen_height g) w (player g) (home g)
    (enemies_factory g) (enemies_color g) (enemy_generator g) (elements g)
    (is_running g) (canvas_texts g) (clock g) (timers g).

Definition set_player (g : Game) (p : PlayerObj) : Game :=
  mkGame (level g) (screen_width g) (screen_height g) (waypoint g) p (home g)
    (enemies_factory g) (enemies_color g) (enemy_generator g) (elements g)
    (is_running g) (canvas_texts g) (clock g) (timers g).

Definition set_home (g : Game) (h : HomeObj) : Game :=
  mkGame (level g) (screen_width g) (screen_height g) (waypoint g) (player g) h
    (enemies_factory g) (enemies_color g) (enemy_generator g) (elements g)
    (is_running g) (canvas_texts g) (clock g) (timers g).

Definition set_factories (g : Game) (fs : list Kind) (cs : list string) : Game :=
  mkGame (level g) (screen_width g) (screen_height g) (waypoint g) (player g)
    (home g) fs cs (enemy_generator g) (elements g)
    (is_running g) (canvas_texts g) (clock g) (timers g).

Definition set_enemy_generator (g : Game) (eg : EnemyGeneratorObj) : Game :=
  mkGame (level g) (screen_width g) (screen_height g) (waypoint g) (player g)
    (home g) (enemies_factory g) (enemies_color g) (Some eg) (elements g)
    (is_running g) (canvas_texts g) (clock g) (timers g).

Definition set_elements (g : Game) (els : list Element) : Game :=
  mkGame (level g) (screen_width g) (screen_height g) (waypoint g) (player g)
    (home g) (enemies_factory g) (enemies_color g) (enemy_generator g) els
    (is_running g) (canvas_texts g) (clock g) (timers g).

Definition set_is_running (g : Game) (b : bool) : Game :=
  mkGame (level g) (screen_width g) (screen_height g) (waypoint g) (player g)
    (home g) (enemies_factory g) (enemies_color g) (enemy_generator g)
    (elements g) b (canvas_texts g) (clock g) (timers g).

Definition set_canvas_texts (g : Game) (ts : list TextItem) : Game :=
  mkGame (level g) (screen_width g) (screen_height g) (waypoint g) (player g)
    (home g) (enemies_factory g) (enemies_color g) (enemy_generator g)
    (elements g) (is_running g) ts (clock g) (timers g).

Definition set_timers (g : Game) (now : Z) (q : list (Z * Callback)) : Game :=
  mkGame (level g) (screen_width g) (screen_height g) (waypoint g) (player g)
    (home g) (enemies_factory g) (enemies_color g) (enemy_generator g)
    (elements g) (is_running g) (canvas_texts g) now q.

(** ** The toolkit and [gamelib.Game] operations the module calls *)

(** [list[i]] with Python's negative indices. *)
Definition py_index {A : Type} (l : list A) (i : Z) : result A :=
  let n := Z.of_nat (List.length l) in
  let j := if (i <? 0)%Z then (n + i)%Z else i in
  if (j <? 0)%Z then Raise IndexError
  else match nth_error l (Z.to_nat j) with
       | Some a => Ok a
       | None => Raise IndexError
       end.

(** The toolkit's [after(ms, callback)]: the callback is queued for the time
    [clock + ms]; the queue is kept in firing order, a later request with the
    same due time firing later. *)
Fixpoint enqueue (due : Z) (cb : Callback) (q : list (Z * Callback))
  : list (Z * Callback) :=
  match q with
  | [] => [(due, cb)]
  | (t, c) :: q' =>
      if (t <=? due)%Z then (t, c) :: enqueue due cb q'
      else (due, cb) :: (t, c) :: q'
  end.

Definition after (g : Game) (ms : Z) (cb : Callback) : Game :=
  set_timers g (clock g) (enqueue (clock g + ms)%Z cb (timers g)).

(** [canvas.create_text(..., text=..., fill=...)]: one more item on the
    canvas. *)
Definition create_text (g : Game) (text fill : string) : Game :=
  set_canvas_texts g (canvas_texts g ++ [mkText text fill]).

(** Modelled from the spec: [gamelib.Game.stop], which is not part of the
    sources.  Stopping the session halts further ticking: it clears the flag
    that the update loop consults. *)
Definition stop (g : Game) : Game := set_is_running g false.

(** ** [TurtleAdventureGame]: end-of-game signals and factory registration *)

Definition add_enemy_factory (g : Game) (enemy : Kind) (color : string) : Game :=
  set_factories g (enemies_factory g ++ [enemy]) (enemies_color g ++ [color]).

Definition game_over_win (g : Game) : Game :=
  let g := stop g in
  create_text g "You Win" "green".

Definition game_over_lose (g : Game) : Game :=
  let g := stop g in
  create_text g "You Lose" "red".

(** ** [Waypoint] *)

Module Waypoint.

Definition activate (w : WaypointObj) (x y : R) : WaypointObj :=
  mkWaypoint x y true.

Definition deactivate (w : WaypointObj) : WaypointObj :=
  mkWaypoint (wp_x w) (wp_y w) false.

Definition is_active (w : WaypointObj) : bool := wp_active w.

End Waypoint.

(** ** [Home] *)

Module Home.

Local Open Scope R_scope.

(** [x1 <= x <= x2 and y1 <= y <= y2], with [size/2] a true division. *)
Definition contains (h : HomeObj) (x y : R) : bool :=
  let x1 := IZR (home_x h) - IZR (home_size h) / 2 in
  let x2 := IZR (home_x h) + IZR (home_size h) / 2 in
  let y1 := IZR (home_y h) - IZR (home_size h) / 2 in
  let y2 := IZR (home_y h) + IZR (home_size h) / 2 in
  (Rleb x1 x && Rleb x x2) && (Rleb y1 y && Rleb y y2).

End Home.

(** ** [Player] *)

Module Player.

Local Open Scope R_scope.

(** The turtle operations [update] uses, in user coordinates.  Angles are
    kept in radians: the turtle's degrees only rescale the argument of the
    sine and cosine it then takes. *)
Definition towards (p : PlayerObj) (x y : R) : R :=
  math.atan2 (y - pl_y p) (x - pl_x p).

Definition setheading (p : PlayerObj) (a : R) : PlayerObj :=
  mkPlayer (pl_x p) (pl_y p) a (pl_speed p).

Definition forward (p : PlayerObj) (d : R) : PlayerObj :=
  mkPlayer (pl_x p + d * cos (pl_heading p)) (pl_y p + d * sin (pl_heading p))
    (pl_heading p) (pl_speed p).

Definition distance (p : PlayerObj) (x y : R) : R :=
  math.hypot (x - pl_x p) (y - pl_y p).

Definition update (g : Game) : Game :=
  let g :=
    if Home.contains (home g) (pl_x (player g)) (pl_y (player g))
    then game_over_win g else g in
  let wp := waypoint g in
  if Waypoint.is_active wp then
    let t := setheading (player g) (towards (player g) (wp_x wp) (wp_y wp)) in
    let t := forward t (pl_speed t) in
    let g := set_player g t in
    if Rltb (distance t (wp_x wp) (wp_y wp)) (pl_speed t)
    then set_waypoint g (Waypoint.deactivate wp)
    else g
  else g.

(** The [x] and [y] setters, which go through the turtle. *)
Definition set_x (p : PlayerObj) (v : R) : PlayerObj :=
  mkPlayer v (pl_y p) (pl_heading p) (pl_speed p).

Definition set_y (p : PlayerObj) (v : R) : PlayerObj :=
  mkPlayer (pl_x p) v (pl_heading p) (pl_speed p).

End Player.

(** ** [Enemy]: the base class *)

Module Enemy.

Local Open Scope R_scope.

(** [hits_player] of an enemy at [(x, y)] with the given [size]: two chained
    strict comparisons, joined by [and]. *)
Definition hits_player (x y : R) (size : Z) (p : PlayerObj) : bool :=
  (Rltb (x - IZR size / 2) (pl_x p) && Rltb (pl_x p) (x + IZR size / 2))
  &&
  (Rltb (y - IZR size / 2) (pl_y p) && Rltb (pl_y p) (y + IZR size / 2)).

(** The tail shared by every [update]: signal the loss on a hit. *)
Definition check_hit (g : Game) (x y : R) (size : Z) : Game :=
  if hits_player x y size (player g) then game_over_lose g else g.

End Enemy.

(** The coordinates of a game element that nothing has assigned yet.  The
    base class [GameElement] belongs to [gamelib]; every path below assigns
    both coordinates before they are read. *)
Definition unset_coordinate : Z := 0.

(** ** [DemoEnemy] *)

Module DemoEnemy.

Definition init (g : Game) (size : Z) (color : string) : DemoObj :=
  mkDemo unset_coordinate unset_coordinate size color.

(** [create] only makes the canvas item. *)
Definition create (g : Game) (e : DemoObj) : DemoObj := e.

Definition update (g : Game) (e : DemoObj) : DemoObj * Game :=
  let e := mkDemo (de_x e + 1) (de_y e) (de_size e) (de_color e) in
  let e := mkDemo (de_x e) (de_y e + 2) (de_size e) (de_color e) in
  (e, Enemy.check_hit g (IZR (de_x e)) (IZR (de_y e)) (de_size e)).

End DemoEnemy.

(** ** [RandomWalkEnemy] *)

Module RandomWalkEnemy.

Local Open Scope Z_scope.

Definition init (g : Game) (size : Z) (color : string) (draw : Z)
  : result RandomWalkObj :=
  speed <- random.randint 1 5 draw ;;
  Ok (mkRandomWalk unset_coordinate unset_coordinate size color speed
        XRight YDown).

Definition set_pos (e : RandomWalkObj) (x y : Z) : RandomWalkObj :=
  mkRandomWalk x y (rw_size e) (rw_color e) (rw_speed e) (rw_xmove e)
    (rw_ymove e).

Definition set_xmove (e : RandomWalkObj) (m : XMove) : RandomWalkObj :=
  mkRandomWalk (rw_x e) (rw_y e) (rw_size e) (rw_color e) (rw_speed e) m
    (rw_ymove e).

Definition set_ymove (e : RandomWalkObj) (m : YMove) : RandomWalkObj :=
  mkRandomWalk (rw_x e) (rw_y e) (rw_size e) (rw_color e) (rw_speed e)
    (rw_xmove e) m.

Definition move_to (e : RandomWalkObj) (x y : Z) : RandomWalkObj :=
  set_pos e x y.

Definition x_left (g : Game) (e : RandomWalkObj) : RandomWalkObj :=
  let e := set_pos e (rw_x e - rw_speed e) (rw_y e) in
  if rw_x e <? 0 then set_xmove e XRight else e.

Definition x_right (g : Game) (e : RandomWalkObj) : RandomWalkObj :=
  let e := set_pos e (rw_x e + rw_speed e) (rw_y e) in
  if rw_x e >? screen_width g then set_xmove e XLeft else e.

Definition y_up (g : Game) (e : RandomWalkObj) : RandomWalkObj :=
  let e := set_pos e (rw_x e) (rw_y e - rw_speed e) in
  if rw_y e <=? 0 then set_ymove e YDown else e.

Definition y_down (g : Game) (e : RandomWalkObj) : RandomWalkObj :=
  let e := set_pos e (rw_x e) (rw_y e + rw_speed e) in
  if rw_y e >? screen_height g then set_ymove e YUp else e.

Definition create (g : Game) (e : RandomWalkObj) (draw1 draw2 : Z)
  : result RandomWalkObj :=
  x1 <- random.randint 0 (screen_width g - 1) draw1 ;;
  y1 <- random.randint 0 (screen_width g - 1) draw2 ;;
  Ok (set_pos e x1 y1).

(** Calling the bound method stored in [xmove], respectively [ymove]. *)
Definition call_xmove (g : Game) (e : RandomWalkObj) : RandomWalkObj :=
  match rw_xmove e with
  | XLeft => x_left g e
  | XRight => x_right g e
  end.

Definition call_ymove (g : Game) (e : RandomWalkObj) : RandomWalkObj :=
  match rw_ymove e with
  | YUp => y_up g e
  | YDown => y_down g e
  end.

Definition update (g : Game) (e : RandomWalkObj) : RandomWalkObj * Game :=
  let e := call_xmove g e in
  let e := call_ymove g e in
  (e, Enemy.check_hit g (IZR (rw_x e)) (IZR (rw_y e)) (rw_size e)).

End RandomWalkEnemy.

(** ** [ChasingEnemy] *)

Module ChasingEnemy.

Local Open Scope R_scope.

Definition init (g : Game) (size : Z) (color : string) : ChasingObj :=
  mkChasing (IZR unset_coordinate) (IZR unset_coordinate) size color 3 0 0.

Definition set_pos (e : ChasingObj) (x y : R) : ChasingObj :=
  mkChasing x y (ch_size e) (ch_color e) (ch_speed e) (ch_speedx e)
    (ch_speedy e).

Definition create (g : Game) (e : ChasingObj) (draw1 draw2 : Z)
  : result ChasingObj :=
  x1 <- random.randint 0 (screen_width g - 1) draw1 ;;
  y1 <- random.randint 0 (screen_width g - 1) draw2 ;;
  Ok (set_pos e (IZR x1) (IZR y1)).

Definition update (g : Game) (e : ChasingObj) : ChasingObj * Game :=
  let p := player g in
  let angle := math.atan2 (pl_y p - ch_y e) (pl_x p - ch_x e) in
  let speedx := IZR (ch_speed e) * cos angle in
  let speedy := IZR (ch_speed e) * sin angle in
  let e := mkChasing (ch_x e + speedx) (ch_y e + speedy) (ch_size e)
             (ch_color e) (ch_speed e) speedx speedy in
  (e, Enemy.check_hit g (ch_x e) (ch_y e) (ch_size e)).

End ChasingEnemy.

(** ** [FencingEnemy] *)

Module FencingEnemy.

Local Open Scope Z_scope.

Definition init (g : Game) (size : Z) (color : string) : FencingObj :=
  mkFencing unset_coordinate unset_coordinate size color 2
    (home_x (home g)) (home_y (home g)) 60 None.

Definition set_pos (e : FencingObj) (x y : Z) : FencingObj :=
  mkFencing x y (fe_size e) (fe_color e) (fe_speed e) (fe_homex e)
    (fe_homey e) (fe_off_from_home e) (fe_move e).

Definition set_move (e : FencingObj) (m : Leg) : FencingObj :=
  mkFencing (fe_x e) (fe_y e) (fe_size e) (fe_color e) (fe_speed e)
    (fe_homex e) (fe_homey e) (fe_off_from_home e) (Some m).

Definition create (g : Game) (e : FencingObj) (draw : Z) : result FencingObj :=
  let off_from_home := fe_off_from_home e in
  let homex := fe_homex e in
  let homey := fe_homey e in
  let pos :=
    [ ((homex, homey + off_from_home), LegLeft);
      ((homex + off_from_home, homey), LegDown);
      ((homex, homey - off_from_home), LegRight);
      ((homex - off_from_home, homey), LegUp) ] in
  k <- random.randint 0 3 draw ;;
  ran_pos <- py_index pos k ;;
  Ok (set_move (set_pos e (fst (fst ran_pos)) (snd (fst ran_pos)))
        (snd ran_pos)).

Definition up (e : FencingObj) : FencingObj :=
  let e := set_pos e (fe_x e) (fe_y e - fe_speed e) in
  if fe_y e <? fe_homey e - fe_off_from_home e then set_move e LegRight else e.

Definition right (e : FencingObj) : FencingObj :=
  let e := set_pos e (fe_x e + fe_speed e) (fe_y e) in
  if fe_x e >? fe_homex e + fe_off_from_home e then set_move e LegDown else e.

Definition down (e : FencingObj) : FencingObj :=
  let e := set_pos e (fe_x e) (fe_y e + fe_speed e) in
  if fe_y e >? fe_homey e + fe_off_from_home e then set_move e LegLeft else e.

Definition left (e : FencingObj) : FencingObj :=
  let e := set_pos e (fe_x e - fe_speed e) (fe_y e) in
  if fe_x e <? fe_homex e - fe_off_from_home e then set_move e LegUp else e.

(** [self.move()]: calling [None] raises [TypeError]. *)
Definition call_move (e : FencingObj) : result FencingObj :=
  match fe_move e with
  | None => Raise TypeError
  | Some LegUp => Ok (up e)
  | Some LegRight => Ok (right e)
  | Some LegDown => Ok (down e)
  | Some LegLeft => Ok (left e)
  end.

Definition update (g : Game) (e : FencingObj) : result (FencingObj * Game) :=
  e <- call_move e ;;
  Ok (e, Enemy.check_hit g (IZR (fe_x e)) (IZR (fe_y e)) (fe_size e)).

End FencingEnemy.

(** ** [BlockerEnemy] *)

Module BlockerEnemy.

Local Open Scope R_scope.

Definition init (g : Game) (size : Z) (color : string) : BlockerObj :=
  mkBlocker (IZR unset_coordinate) (IZR unset_coordinate) size color 7
    (pl_x (player g)) (pl_y (player g)) 60 None.

Definition set_pos (e : BlockerObj) (x y : R) : BlockerObj :=
  mkBlocker x y (bl_size e) (bl_color e) (bl_speed e) (bl_player_x e)
    (bl_player_y e) (bl_off_from_player e) (bl_move e).

Definition set_move (e : BlockerObj) (m : Leg) : BlockerObj :=
  mkBlocker (bl_x e) (bl_y e) (bl_size e) (bl_color e) (bl_speed e)
    (bl_player_x e) (bl_player_y e) (bl_off_from_player e) (Some m).

Definition create (g : Game) (e : BlockerObj) (draw : Z) : result BlockerObj :=
  let off_from_home := IZR (bl_off_from_player e) in
  let playerx := bl_player_x e in
  let playery := bl_player_y e in
  let pos :=
    [ ((playerx, playery + off_from_home), LegLeft);
      ((playerx + off_from_home, playery), LegDown);
      ((playerx, playery - off_from_home), LegRight);
      ((playerx - off_from_home, playery), LegUp) ] in
  k <- random.randint 0 3 draw ;;
  ran_pos <- py_index pos k ;;
  Ok (set_move (set_pos e (fst (fst ran_pos)) (snd (fst ran_pos)))
        (snd ran_pos)).

Definition up (e : BlockerObj) : BlockerObj :=
  let e := set_pos e (bl_x e) (bl_y e - IZR (bl_speed e)) in
  if Rltb (bl_y e) (bl_player_y e - IZR (bl_off_from_player e))
  then set_move e LegDown else e.

Definition right (e : BlockerObj) : BlockerObj :=
  let e := set_pos e (bl_x e + IZR (bl_speed e)) (bl_y e) in
  if Rgtb (bl_x e) (bl_player_x e + IZR (bl_off_from_player e))
  then set_move e LegLeft else e.

Definition down (e : BlockerObj) : BlockerObj :=
  let e := set_pos e (bl_x e) (bl_y e + IZR (bl_speed e)) in
  if Rgtb (bl_y e) (bl_player_y e + IZR (bl_off_from_player e))
  then set_move e LegUp else e.

Definition left (e : BlockerObj) : BlockerObj :=
  let e := set_pos e (bl_x e - IZR (bl_speed e)) (bl_y e) in
  if Rltb (bl_x e) (bl_player_x e - IZR (bl_off_from_player e))
  then set_move e LegRight else e.

Definition call_move (e : BlockerObj) : result BlockerObj :=
  match bl_move e with
  | None => Raise TypeError
  | Some LegUp => Ok (up e)
  | Some LegRight => Ok (right e)
  | Some LegDown => Ok (down e)
  | Some LegLeft => Ok (left e)
  end.

Definition update (g : Game) (e : BlockerObj) : result (BlockerObj * Game) :=
  e <- call_move e ;;
  Ok (e, Enemy.check_hit g (bl_x e) (bl_y e) (bl_size e)).

End BlockerEnemy.

(** ** Dispatch over the enemy classes *)

(** Calling a class of [enemies_factory] as [enemy_factory(game, size, color)]. *)
Definition construct (k : Kind) (g : Game) (size : Z) (color : string)
  (d : Draws) : result EnemyObj :=
  match k with
  | KDemo => Ok (EDemo (DemoEnemy.init g size color))
  | KRandomWalk =>
      e <- RandomWalkEnemy.init g size color (d_init d) ;; Ok (ERandomWalk e)
  | KChasing => Ok (EChasing (ChasingEnemy.init g size color))
  | KFencing => Ok (EFencing (FencingEnemy.init g size color))
  | KBlocker => Ok (EBlocker (BlockerEnemy.init g size color))
  end.

Definition kind_of (e : EnemyObj) : Kind :=
  match e with
  | EDemo _ => KDemo
  | ERandomWalk _ => KRandomWalk
  | EChasing _ => KChasing
  | EFencing _ => KFencing
  | EBlocker _ => KBlocker
  end.

(** The assignments [new_enemy.x = v] and [new_enemy.y = v] of an [int]. *)
Definition enemy_set_x (e : EnemyObj) (v : Z) : EnemyObj :=
  match e with
  | EDemo e => EDemo (mkDemo v (de_y e) (de_size e) (de_color e))
  | ERandomWalk e => ERandomWalk (RandomWalkEnemy.set_pos e v (rw_y e))
  | EChasing e => EChasing (ChasingEnemy.set_pos e (IZR v) (ch_y e))
  | EFencing e => EFencing (FencingEnemy.set_pos e v (fe_y e))
  | EBlocker e => EBlocker (BlockerEnemy.set_pos e (IZR v) (bl_y e))
  end.

Definition enemy_set_y (e : EnemyObj) (v : Z) : EnemyObj :=
  match e with
  | EDemo e => EDemo (mkDemo (de_x e) v (de_size e) (de_color e))
  | ERandomWalk e => ERandomWalk (RandomWalkEnemy.set_pos e (rw_x e) v)
  | EChasing e => EChasing (ChasingEnemy.set_pos e (ch_x e) (IZR v))
  | EFencing e => EFencing (FencingEnemy.set_pos e (fe_x e) v)
  | EBlocker e => EBlocker (BlockerEnemy.set_pos e (bl_x e) (IZR v))
  end.

Definition enemy_x (e : EnemyObj) : R :=
  match e with
  | EDemo e => IZR (de_x e)
  | ERandomWalk e => IZR (rw_x e)
  | EChasing e => ch_x e
  | EFencing e => IZR (fe_x e)
  | EBlocker e => bl_x e
  end.

Definition enemy_y (e : EnemyObj) : R :=
  match e with
  | EDemo e => IZR (de_y e)
  | ERandomWalk e => IZR (rw_y e)
  | EChasing e => ch_y e
  | EFencing e => IZR (fe_y e)
  | EBlocker e => bl_y e
  end.

Definition enemy_size (e : EnemyObj) : Z :=
  match e with
  | EDemo e => de_size e
  | ERandomWalk e => rw_size e
  | EChasing e => ch_size e
  | EFencing e => fe_size e
  | EBlocker e => bl_size e
  end.

Definition enemy_color (e : EnemyObj) : string :=
  match e with
  | EDemo e => de_color e
  | ERandomWalk e => rw_color e
  | EChasing e => ch_color e
  | EFencing e => fe_color e
  | EBlocker e => bl_color e
  end.

(** The creation hook [create()] of an enemy. *)
Definition enemy_create (g : Game) (e : EnemyObj) (d : Draws) : result EnemyObj :=
  match e with
  | EDemo e => Ok (EDemo (DemoEnemy.create g e))
  | ERandomWalk e =>
      e <- RandomWalkEnemy.create g e (d_create1 d) (d_create2 d) ;;
      Ok (ERandomWalk e)
  | EChasing e =>
      e <- ChasingEnemy.create g e (d_create1 d) (d_create2 d) ;;
      Ok (EChasing e)
  | EFencing e => e <- FencingEnemy.create g e (d_create1 d) ;; Ok (EFencing e)
  | EBlocker e => e <- BlockerEnemy.create g e (d_create1 d) ;; Ok (EBlocker e)
  end.

(** The per-tick hook [update()] of an enemy. *)
Definition enemy_update (g : Game) (e : EnemyObj) : result (EnemyObj * Game) :=
  match e with
  | EDemo e => let r := DemoEnemy.update g e in Ok (EDemo (fst r), snd r)
  | ERandomWalk e =>
      let r := RandomWalkEnemy.update g e in Ok (ERandomWalk (fst r), snd r)
  | EChasing e =>
      let r := ChasingEnemy.update g e in Ok (EChasing (fst r), snd r)
  | EFencing e => r <- FencingEnemy.update g e ;; Ok (EFencing (fst r), snd r)
  | EBlocker e => r <- BlockerEnemy.update g e ;; Ok (EBlocker (fst r), snd r)
  end.

(** ** Session controller *)

(** Modelled from the spec: [gamelib.Game.add_element], which is not part of
    the sources.  It registers an entity, calling its creation hook before
    the first tick in which it participates.  The creation hooks of the
    waypoint, the home and the player only make canvas items. *)
Definition add_element (g : Game) (el : Element) (d : Draws) : result Game :=
  match el with
  | ElEnemy e =>
      e <- enemy_create g e d ;;
      Ok (set_elements g (elements g ++ [ElEnemy e]))
  | _ => Ok (set_elements g (elements g ++ [el]))
  end.

Module EnemyGenerator.

Local Open Scope Z_scope.

Definition init (g : Game) (lvl : Z) : Game :=
  let g := after g 100 CbCreateEnemy in
  set_enemy_generator g (mkEnemyGenerator lvl).

Definition create_enemy (g : Game) (d : Draws) : result Game :=
  randindex <-
    random.randint 0 (Z.of_nat (List.length (enemies_factory g)) - 1)
      (d_index d) ;;
  enemy_factory <- py_index (enemies_factory g) randindex ;;
  color <- py_index (enemies_color g) randindex ;;
  new_enemy <- construct enemy_factory g 20 color d ;;
  let new_enemy := enemy_set_x new_enemy 100 in
  let new_enemy := enemy_set_y new_enemy 100 in
  g <- add_element g (ElEnemy new_enemy) d ;;
  Ok (after g 500 CbCreateEnemy).

End EnemyGenerator.

(** Draws for the calls that consume none. *)
Definition no_draws : Draws := mkDraws 0 0 0 0.

(** [TurtleAdventureGame.__init__] up to the call of the base constructor.
    Modelled from the spec: the part of [gamelib.Game] is an empty entity
    collection and a session that is in progress. *)
Definition new_game (width height lvl : Z) : Game :=
  mkGame lvl width height
    (mkWaypoint (IZR unset_coordinate) (IZR unset_coordinate) false)
    (mkPlayer 0 0 0 5)
    (mkHome unset_coordinate unset_coordinate 0)
    [] [] None [] true [] 0 [].

(** [turtle.screen.setworldcoordinates(llx, lly, urx, ury)]: the screen
    scales become the canvas extents divided by the spans [urx - llx] and
    [ury - lly], in that order, so a span of 0 raises [ZeroDivisionError].
    The scales only concern rendering and are not kept. *)
Definition setworldcoordinates (llx lly urx ury : Z) : result unit :=
  let xspan := (urx - llx)%Z in
  let yspan := (ury - lly)%Z in
  if (xspan =? 0)%Z then Raise ZeroDivisionError
  else if (yspan =? 0)%Z then Raise ZeroDivisionError
  else Ok tt.

Definition init_game (g : Game) : result Game :=
  world <- setworldcoordinates 0 (screen_height g - 1) (screen_width g - 1) 0 ;;
  let g := set_waypoint g
             (mkWaypoint (IZR unset_coordinate) (IZR unset_coordinate) false) in
  g <- add_element g ElWaypoint no_draws ;;
  let g := set_home g
             (mkHome (screen_width g - 100) (screen_height g / 2) 20)%Z in
  g <- add_element g ElHome no_draws ;;
  let g := set_player g (mkPlayer 0 0 0 5) in
  g <- add_element g ElPlayer no_draws ;;
  let g := EnemyGenerator.init g (level g) in
  let g := add_enemy_factory g KRandomWalk "red" in
  let g := add_enemy_factory g KChasing "green" in
  let g := add_enemy_factory g KFencing "blue" in
  let g := add_enemy_factory g KBlocker "yellow" in
  let g := set_player g (Player.set_x (player g) 50) in
  let g := set_player g
             (Player.set_y (player g) (IZR (screen_height g / 2))) in
  Ok g.

(** The handler bound to the primary mouse button. *)
Definition on_click (g : Game) (ex ey : Z) : Game :=
  set_waypoint g (Waypoint.activate (waypoint g) (IZR ex) (IZR ey)).

(** The toolkit running the next queued timer: the clock advances to its
    due time and the callback is called. *)
Definition fire (g : Game) (d : Draws) : result Game :=
  match timers g with
  | [] => Ok g
  | (due, CbCreateEnemy) :: q =>
      EnemyGenerator.create_enemy (set_timers g (Z.max (clock g) due) q) d
  end.

(** Assignment to the [i]-th entry of a list. *)
Fixpoint list_set {A : Type} (l : list A) (i : nat) (a : A) : list A :=
  match l, i with
  | [], _ => []
  | _ :: l', O => a :: l'
  | b :: l', S i' => b :: list_set l' i' a
  end.

(** The [update()] of the [i]-th element of the collection. *)
Definition update_element (g : Game) (i : nat) : result Game :=
  match nth_error (elements g) i with
  | None => Ok g
  | Some ElWaypoint => Ok g
  | Some ElHome => Ok g
  | Some ElPlayer => Ok (Player.update g)
  | Some (ElEnemy e) =>
      r <- enemy_update g e ;;
      Ok (set_elements (snd r) (list_set (elements (snd r)) i (ElEnemy (fst r))))
  end.

Fixpoint update_from (n i : nat) (g : Game) : result Game :=
  match n with
  | O => Ok g
  | S n' => g <- update_element g i ;; update_from n' (S i) g
  end.

(** Modelled from the spec: the per-tick behaviour of [gamelib.Game], which
    is not part of the sources.  If the session is not in progress the tick
    does nothing; otherwise it updates (and renders) every entity of the
    collection, in the collection's order. *)
Definition tick (g : Game) : result Game :=
  if is_running g then update_from (List.length (elements g)) 0 g else Ok g.

(** ** Vocabulary of the specification *)

(** Euclidean distance between a chasing enemy and the player. *)
Definition chaser_distance (g : Game) (e : ChasingObj) : R :=
  math.hypot (pl_x (player g) - ch_x e) (pl_y (player g) - ch_y e).


(** The home check at the head of [Player.update]. *)
Definition after_home_check (g : Game) : Game :=
  if Home.contains (home g) (pl_x (player g)) (pl_y (player g))
  then game_over_win g else g.

(** The position the turtle reaches by heading for the waypoint. *)
Definition stepped (g : Game) : PlayerObj :=
  let t := Player.setheading (player g)
             (Player.towards (player g) (wp_x (waypoint g)) (wp_y (waypoint g))) in
  Player.forward t (pl_speed t).

(** ** A concrete session

    The session of an 800 x 600 arena right after [init_game], used by the
    examples below. *)
Definition game0 : Game :=
  match init_game (new_game 800 600 1) with
  | Ok g => g
  | Raise _ => new_game 800 600 1
  end.

(** ** Patrols: vocabulary

    The cyclic order of the legs in the words of the specification, for the
    fencing enemy and for the blocker. *)
Definition fencing_cycle (l : Leg) : Leg :=
  match l with
  | LegUp => LegRight
  | LegRight => LegDown
  | LegDown => LegLeft
  | LegLeft => LegUp
  end.

Definition blocker_switch (l : Leg) : Leg :=
  match l with
  | LegUp => LegDown
  | LegRight => LegLeft
  | LegDown => LegUp
  | LegLeft => LegRight
  end.

(** Repeated [update()] calls of one fencing enemy, one per game state of the
    list: the state of the session the enemy sees at that tick. *)
Fixpoint fencing_updates (gs : list Game) (e : FencingObj) : result FencingObj :=
  match gs with
  | [] => Ok e
  | g :: gs' => r <- FencingEnemy.update g e ;; fencing_updates gs' (fst r)
  end.

(** [n] calls of the stored [move]. *)
Fixpoint fencing_run (n : nat) (e : FencingObj) : result FencingObj :=
  match n with
  | O => Ok e
  | S n' => e' <- FencingEnemy.call_move e ;; fencing_run n' e'
  end.

(** The position lies in the square of half-width [half] around the anchor. *)
Definition within_square (half : Z) (e : FencingObj) : bool :=
  ((fe_homex e - half <=? fe_x e) && (fe_x e <=? fe_homex e + half) &&
   (fe_homey e - half <=? fe_y e) && (fe_y e <=? fe_homey e + half))%Z.

(** The four canonical starts of [FencingEnemy.create], by index. *)
Definition fencing_start (e : FencingObj) (k : Z) : FencingObj :=
  let off := fe_off_from_home e in
  let hx := fe_homex e in
  let hy := fe_homey e in
  if (k =? 0)%Z then FencingEnemy.set_move (FencingEnemy.set_pos e hx (hy + off)) LegLeft
  else if (k =? 1)%Z then FencingEnemy.set_move (FencingEnemy.set_pos e (hx + off) hy) LegDown
  else if (k =? 2)%Z then FencingEnemy.set_move (FencingEnemy.set_pos e hx (hy - off)) LegRight
  else FencingEnemy.set_move (FencingEnemy.set_pos e (hx - off) hy) LegUp.

(** The leg-wise invariant of a fencing patrol: on each leg the coordinate
    that leg does not move is on the patrolled track, and the coordinate it
    moves has not yet been found beyond the boundary. *)
Definition fencing_inv (e : FencingObj) : Prop :=
  (fe_speed e = 2 /\ fe_off_from_home e = 60 /\
   let dx := fe_x e - fe_homex e in
   let dy := fe_y e - fe_homey e in
   match fe_move e with
   | None => False
   | Some LegUp => -62 <= dx <= -60 /\ -60 <= dy <= 62
   | Some LegRight => -62 <= dy <= -60 /\ -62 <= dx <= 60
   | Some LegDown => 60 <= dx <= 62 /\ -62 <= dy <= 60
   | Some LegLeft => 60 <= dy <= 62 /\ -60 <= dx <= 62
   end)%Z.

(** Translation of a fencing enemy together with its anchor. *)
Definition fencing_shift (dx dy : Z) (e : FencingObj) : FencingObj :=
  mkFencing (fe_x e + dx) (fe_y e + dy) (fe_size e) (fe_color e) (fe_speed e)
    (fe_homex e + dx) (fe_homey e + dy) (fe_off_from_home e) (fe_move e).

Definition result_map {A B : Type} (f : A -> B) (m : result A) : result B :=
  match m with
  | Ok a => Ok (f a)
  | Raise e => Raise e
  end.

(** The test that ends a leg: the coordinate the leg moves is strictly beyond
    the boundary the leg heads for. *)
Definition fencing_beyond (e : FencingObj) (l : Leg) : bool :=
  (match l with
   | LegUp => fe_y e <? fe_homey e - fe_off_from_home e
   | LegRight => fe_x e >? fe_homex e + fe_off_from_home e
   | LegDown => fe_y e >? fe_homey e + fe_off_from_home e
   | LegLeft => fe_x e <? fe_homex e - fe_off_from_home e
   end)%Z.

(** The leg a fencing enemy is on after [n] calls of [move]. *)
Definition fencing_leg_after (n : nat) (e : FencingObj) : option Leg :=
  match fencing_run n e with
  | Ok e' => fe_move e'
  | Raise _ => None
  end.

(** A fencing enemy whose anchor is the origin. *)
Definition fencing_at_origin (size : Z) (color : string) : FencingObj :=
  mkFencing 0 0 size color 2 0 0 60 None.

(** The test that ends a leg of the blocker. *)
Definition blocker_beyond (e : BlockerObj) (l : Leg) : bool :=
  (match l with
   | LegUp => Rltb (bl_y e) (bl_player_y e - IZR (bl_off_from_player e))
   | LegRight => Rgtb (bl_x e) (bl_player_x e + IZR (bl_off_from_player e))
   | LegDown => Rgtb (bl_y e) (bl_player_y e + IZR (bl_off_from_player e))
   | LegLeft => Rltb (bl_x e) (bl_player_x e - IZR (bl_off_from_player e))
   end)%R.

(** The blocker that has the position, speed, anchor, half-width and leg of
    a given fencing enemy. *)
Definition blocker_of_fencing (f : FencingObj) : BlockerObj :=
  mkBlocker (IZR (fe_x f)) (IZR (fe_y f)) (fe_size f) (fe_color f) (fe_speed f)
    (IZR (fe_homex f)) (IZR (fe_homey f)) (fe_off_from_home f) (fe_move f).

(** A blocker on leg [l] standing on the boundary that leg heads for. *)
Definition blocker_on_boundary (l : Leg) : BlockerObj :=
  (match l with
   | LegUp => mkBlocker (-60) (-60) 20 "yellow" 7 0 0 60 (Some LegUp)
   | LegRight => mkBlocker 60 (-60) 20 "yellow" 7 0 0 60 (Some LegRight)
   | LegDown => mkBlocker 60 60 20 "yellow" 7 0 0 60 (Some LegDown)
   | LegLeft => mkBlocker (-60) 60 20 "yellow" 7 0 0 60 (Some LegLeft)
   end)%R.

(** The four canonical starts of [BlockerEnemy.create], by index. *)
Definition blocker_start (e : BlockerObj) (k : Z) : BlockerObj :=
  (let off := IZR (bl_off_from_player e) in
   let px := bl_player_x e in
   let py := bl_player_y e in
   if (k =? 0)%Z then BlockerEnemy.set_move (BlockerEnemy.set_pos e px (py + off)) LegLeft
   else if (k =? 1)%Z then BlockerEnemy.set_move (BlockerEnemy.set_pos e (px + off) py) LegDown
   else if (k =? 2)%Z then BlockerEnemy.set_move (BlockerEnemy.set_pos e px (py - off)) LegRight
   else BlockerEnemy.set_move (BlockerEnemy.set_pos e (px - off) py) LegUp)%R.

(** ** Sessions: vocabulary *)

(** What can happen to a session: a tick of the update loop, a click of the
    primary button, the toolkit running the next queued timer. *)
Inductive Event : Type :=
| EvTick
| EvClick (ex ey : Z)
| EvFire (d : Draws).

Definition step (g : Game) (ev : Event) : result Game :=
  match ev with
  | EvTick => tick g
  | EvClick ex ey => Ok (on_click g ex ey)
  | EvFire d => fire g d
  end.

Fixpoint run (evs : list Event) (g : Game) : result Game :=
  match evs with
  | [] => Ok g
  | ev :: evs' => g' <- step g ev ;; run evs' g'
  end.


(** The factories and colours [init_game] registers. *)
Definition registered (g : Game) : Prop :=
  enemies_factory g = [KRandomWalk; KChasing; KFencing; KBlocker] /\
  enemies_color g = ["red"; "green"; "blue"; "yellow"]%string.

(** The four starts of a patrol around [(cx, cy)], by index. *)
Definition edge_start (cx cy : R) (k : Z) : R * R :=
  (if (k =? 0)%Z then (cx, cy + 60)
   else if (k =? 1)%Z then (cx + 60, cy)
   else if (k =? 2)%Z then (cx, cy - 60)
   else (cx - 60, cy))%R.

(** Where the creation hook of each class puts a new enemy. *)
Definition placement (g : Game) (k : Kind) (d : Draws) : R * R :=
  match k with
  | KDemo => (100, 100)%R
  | KRandomWalk | KChasing =>
      (IZR (d_create1 d mod screen_width g),
       IZR (d_create2 d mod screen_width g))
  | KFencing =>
      edge_start (IZR (home_x (home g))) (IZR (home_y (home g)))
        (d_create1 d mod 4)
  | KBlocker =>
      edge_start (pl_x (player g)) (pl_y (player g)) (d_create1 d mod 4)
  end.

(** The session with one more entity and the spawn callback queued again,
    500 time units from now. *)
Definition spawned (g : Game) (e : EnemyObj) : Game :=
  after (set_elements g (elements g ++ [ElEnemy e])) 500 CbCreateEnemy.

(** The part of the session that neither a tick nor a click touches: the
    arena, the home, the registered factories and the timer queue. *)
Definition setup (g : Game) :=
  (level g, screen_width g, screen_height g, home g, enemies_factory g,
   enemies_color g, enemy_generator g, clock g, timers g).

(** The state of the spawn scheduler after [n] firings: the next firing is
    the only queued timer, due at time [100 + 500 n]. *)
Definition scheduled (width : Z) (n : Z) (g : Game) : Prop :=
  registered g /\ screen_width g = width /\
  timers g = [((100 + 500 * n)%Z, CbCreateEnemy)] /\
  (clock g <= 100 + 500 * n)%Z.

(** A running session in which the player has just stepped into the home,
    at (691, 300), while a blocker that patrols the line y = 300 is about to
    move from x = 707 to x = 700, onto the player. *)
Definition crowded_game : Game :=
  mkGame 1 800 600 (mkWaypoint 691 300 false) (mkPlayer 691 300 0 5)
    (mkHome 700 300 20) [KRandomWalk; KChasing; KFencing; KBlocker]
    ["red"; "green"; "blue"; "yellow"]%string (Some (mkEnemyGenerator 1))
    [ElWaypoint; ElHome; ElPlayer;
     ElEnemy (EBlocker (mkBlocker 707 300 20 "yellow" 7 700 240 60
                          (Some LegLeft)))]
    true [] 100 [(600%Z, CbCreateEnemy)].

(** ** Repeated updates

    The effect of several ticks on one entity, the rest of the session being
    left as it is. *)


(** [n] calls of [ChasingEnemy.update], each in the session the previous
    call has left. *)
Fixpoint chasing_updates (n : nat) (g : Game) (e : ChasingObj)
  : ChasingObj * Game :=
  match n with
  | O => (e, g)
  | S n' =>
      let r := ChasingEnemy.update g e in chasing_updates n' (snd r) (fst r)
  end.

(** [n] calls of [RandomWalkEnemy.update]. *)
Fixpoint randomwalk_updates (n : nat) (g : Game) (e : RandomWalkObj)
  : RandomWalkObj * Game :=
  match n with
  | O => (e, g)
  | S n' =>
      let r := RandomWalkEnemy.update g e in
      randomwalk_updates n' (snd r) (fst r)
  end.

(** [n] calls of [DemoEnemy.update]. *)
Fixpoint demo_updates (n : nat) (g : Game) (e : DemoObj) : DemoObj * Game :=
  match n with
  | O => (e, g)
  | S n' => let r := DemoEnemy.update g e in demo_updates n' (snd r) (fst r)
  end.

(** [n] calls of the stored [move] of a blocker. *)
Fixpoint blocker_run (n : nat) (e : BlockerObj) : result BlockerObj :=
  match n with
  | O => Ok e
  | S n' => e' <- BlockerEnemy.call_move e ;; blocker_run n' e'
  end.

(** Repeated [update()] calls of one blocker, one per game state of the
    list. *)
Fixpoint blocker_updates (gs : list Game) (e : BlockerObj) : result BlockerObj :=
  match gs with
  | [] => Ok e
  | g :: gs' => r <- BlockerEnemy.update g e ;; blocker_updates gs' (fst r)
  end.

(** The leg-wise invariant of a blocker that keeps the coordinate [c] fixed:
    on a horizontal leg [y] is [c], on a vertical leg [x] is [c], and the
    moving coordinate has not yet been found beyond the boundary it heads
    for. *)
Definition blocker_inv (c : R) (e : BlockerObj) : Prop :=
  (bl_speed e = 7%Z /\ bl_off_from_player e = 60%Z /\
   let dx := bl_x e - bl_player_x e in
   let dy := bl_y e - bl_player_y e in
   match bl_move e with
   | None => False
   | Some LegLeft => bl_y e = c /\ -60 <= dy <= 60 /\ -60 <= dx <= 67
   | Some LegRight => bl_y e = c /\ -60 <= dy <= 60 /\ -67 <= dx <= 60
   | Some LegUp => bl_x e = c /\ -60 <= dx <= 60 /\ -60 <= dy <= 67
   | Some LegDown => bl_x e = c /\ -60 <= dx <= 60 /\ -67 <= dy <= 60
   end)%R.

(** The coordinate a leg leaves alone. *)
Definition blocker_fixed (e : BlockerObj) : R :=
  match bl_move e with
  | Some LegUp | Some LegDown => bl_x e
  | _ => bl_y e
  end.

Definition horizontal (l : Leg) : bool :=
  match l with
  | LegLeft | LegRight => true
  | LegUp | LegDown => false
  end.

(** The invariant of a random walk in an arena [w] wide and [h] high: a
    coordinate that moves towards a wall has not yet been found beyond it,
    and a coordinate that moves away from a wall is at most one step beyond
    it.  The vertical range reaches to [w - 1], where [create] can put the
    enemy. *)
Definition randomwalk_inv (w h : Z) (e : RandomWalkObj) : Prop :=
  (let s := rw_speed e in
   let m := Z.max h (w - 1) in
   1 <= s <= 5 /\
   match rw_xmove e with
   | XRight => - s <= rw_x e <= w
   | XLeft => 0 <= rw_x e <= w + s
   end /\
   match rw_ymove e with
   | YDown => - s <= rw_y e <= m
   | YUp => 0 < rw_y e <= m + s
   end)%Z.



(** * Properties *)

(** ** Boolean comparisons on reals *)

Lemma Rltb_true_iff (a b : R) : Rltb a b = true <-> (a < b)%R.
Proof.
  unfold Rltb. destruct (Rlt_dec a b); split; intros; try easy.
Qed.

Lemma Rltb_false_iff (a b : R) : Rltb a b = false <-> (b <= a)%R.
Proof.
  unfold Rltb. destruct (Rlt_dec a b); split; intros; try easy; lra.
Qed.

Lemma Rleb_true_iff (a b : R) : Rleb a b = true <-> (a <= b)%R.
Proof.
  unfold Rleb. destruct (Rle_dec a b); split; intros; try easy.
Qed.

Lemma Rgtb_true_iff (a b : R) : Rgtb a b = true <-> (a > b)%R.
Proof. unfold Rgtb. rewrite Rltb_true_iff. lra. Qed.

(** ** Trigonometry of [atan2] *)

Section Atan2.

Local Open Scope R_scope.

Lemma hypot_nonneg (dx dy : R) : 0 <= math.hypot dx dy.
Proof. unfold math.hypot. apply sqrt_pos. Qed.

Lemma hypot_sqr (dx dy : R) :
  math.hypot dx dy * math.hypot dx dy = dx * dx + dy * dy.
Proof. unfold math.hypot. apply sqrt_sqrt. nra. Qed.

Lemma hypot_pos (dx dy : R) : dx <> 0 \/ dy <> 0 -> 0 < math.hypot dx dy.
Proof.
  intros H. unfold math.hypot. apply sqrt_lt_R0.
  destruct H as [H | H]; nra.
Qed.


(** A nonnegative number is the length of [(dx, dy)] as soon as its square is
    the squared length. *)
Lemma hypot_unique (dx dy r : R) :
  0 <= r -> r * r = dx * dx + dy * dy -> math.hypot dx dy = r.
Proof.
  intros Hr Hsq. unfold math.hypot. rewrite <- Hsq. now apply sqrt_square.
Qed.

Lemma sqrt_slope (x y : R) :
  x <> 0 -> sqrt (1 + (y / x)²) = math.hypot x y / Rabs x.
Proof.
  intros Hx.
  assert (Hax : 0 < Rabs x) by now apply Rabs_pos_lt.
  replace (1 + (y / x)²) with ((x * x + y * y) / (Rabs x * Rabs x)).
  - rewrite sqrt_div_alt by nra.
    rewrite (sqrt_square (Rabs x)) by lra. reflexivity.
  - unfold Rsqr. 
    assert (Habs : Rabs x * Rabs x = x * x).
    { unfold Rabs. destruct (Rcase_abs x); ring. }
    rewrite Habs. field. exact Hx.
Qed.

Lemma cos_atan2 (dy dx : R) :
  dx <> 0 \/ dy <> 0 -> cos (math.atan2 dy dx) = dx / math.hypot dx dy.
Proof.
  intros H. pose proof (hypot_pos H) as Hr.
  unfold math.atan2.
  destruct (total_order_T dx 0) as [[Hlt | Heq] | Hgt].
  - assert (Hc : cos (atan (dy / dx)) = - (dx / math.hypot dx dy)).
    { rewrite cos_atan, sqrt_slope by lra.
      rewrite Rabs_left by lra. field. lra. }
    destruct (Rle_dec 0 dy).
    + rewrite neg_cos. lra.
    + replace (atan (dy / dx) - PI) with (- (- atan (dy / dx) + PI)) by ring.
      rewrite cos_neg, neg_cos, cos_neg. lra.
  - subst dx. unfold Rdiv. rewrite Rmult_0_l.
    destruct (total_order_T dy 0) as [[Hy | Hy] | Hy].
    + rewrite cos_neg. apply cos_PI2.
    + lra.
    + apply cos_PI2.
  - rewrite cos_atan, sqrt_slope by lra.
    rewrite Rabs_right by lra. field. lra.
Qed.

Lemma sin_atan2 (dy dx : R) :
  dx <> 0 \/ dy <> 0 -> sin (math.atan2 dy dx) = dy / math.hypot dx dy.
Proof.
  intros H. pose proof (hypot_pos H) as Hr.
  unfold math.atan2.
  destruct (total_order_T dx 0) as [[Hlt | Heq] | Hgt].
  - assert (Hs : sin (atan (dy / dx)) = - (dy / math.hypot dx dy)).
    { rewrite sin_atan, sqrt_slope by lra.
      rewrite Rabs_left by lra. field. lra. }
    destruct (Rle_dec 0 dy).
    + rewrite neg_sin. lra.
    + replace (atan (dy / dx) - PI) with (- (- atan (dy / dx) + PI)) by ring.
      rewrite sin_neg, neg_sin, sin_neg. lra.
  - subst dx.
    assert (Hh : math.hypot 0 dy = Rabs dy).
    { apply hypot_unique; [apply Rabs_pos |].
      unfold Rabs. destruct (Rcase_abs dy); ring. }
    rewrite Hh.
    destruct (total_order_T dy 0) as [[Hy | Hy] | Hy].
    + rewrite sin_neg, sin_PI2, Rabs_left by lra. field. lra.
    + lra.
    + rewrite sin_PI2, Rabs_right by lra. field. lra.
  - rewrite sin_atan, sqrt_slope by lra.
    rewrite Rabs_right by lra. field. lra.
Qed.

Lemma atan2_0_0 : math.atan2 0 0 = 0.
Proof.
  unfold math.atan2.
  destruct (total_order_T 0 0) as [[H | H] | H]; lra.
Qed.

(** One step of length [s] from [(x, y)] straight towards [(tx, ty)] leaves
    the target at distance [|d - s|], where [d] was the distance before. *)
Lemma pursuit_distance (x y tx ty s : R) :
  tx - x <> 0 \/ ty - y <> 0 ->
  let a := math.atan2 (ty - y) (tx - x) in
  math.hypot (tx - (x + s * cos a)) (ty - (y + s * sin a))
  = Rabs (math.hypot (tx - x) (ty - y) - s).
Proof.
  intros H a. subst a.
  rewrite cos_atan2, sin_atan2 by exact H.
  pose proof (hypot_pos H) as Hr.
  pose proof (hypot_sqr (tx - x) (ty - y)) as Hsq.
  set (r := math.hypot (tx - x) (ty - y)) in *.
  apply hypot_unique; [apply Rabs_pos |].
  replace (Rabs (r - s) * Rabs (r - s)) with ((r - s) * (r - s))
    by (unfold Rabs; destruct (Rcase_abs (r - s)); ring).
  replace (tx - (x + s * ((tx - x) / r))) with ((tx - x) * ((r - s) / r))
    by (field; lra).
  replace (ty - (y + s * ((ty - y) / r))) with ((ty - y) * ((r - s) / r))
    by (field; lra).
  replace ((tx - x) * ((r - s) / r) * ((tx - x) * ((r - s) / r)) +
           (ty - y) * ((r - s) / r) * ((ty - y) * ((r - s) / r)))
    with (((tx - x) * (tx - x) + (ty - y) * (ty - y)) * ((r - s) / r * ((r - s) / r)))
    by ring.
  rewrite <- Hsq. field. lra.
Qed.

End Atan2.

(** ** Collision tests *)

Section Collision.

Local Open Scope R_scope.

Lemma hits_player_spec (x y : R) (size : Z) (p : PlayerObj) :
  Enemy.hits_player x y size p = true <->
  (x - IZR size / 2 < pl_x p < x + IZR size / 2) /\
  (y - IZR size / 2 < pl_y p < y + IZR size / 2).
Proof.
  unfold Enemy.hits_player.
  rewrite !andb_true_iff, !Rltb_true_iff. tauto.
Qed.

Lemma contains_spec (h : HomeObj) (x y : R) :
  Home.contains h x y = true <->
  (IZR (home_x h) - IZR (home_size h) / 2 <= x
     <= IZR (home_x h) + IZR (home_size h) / 2) /\
  (IZR (home_y h) - IZR (home_size h) / 2 <= y
     <= IZR (home_y h) + IZR (home_size h) / 2).
Proof.
  unfold Home.contains. cbv zeta.
  rewrite !andb_true_iff, !Rleb_true_iff. tauto.
Qed.

(** C2: [hits_player] is the open box test, [Home.contains] the closed
    rectangle test; a point of the closed box that lies on one of its four
    edge lines is contained in a home of that box and is not hit by an enemy
    of that box. *)
Theorem C2_hit_open_contains_closed :
  (forall (x y : R) (size : Z) (p : PlayerObj),
      Enemy.hits_player x y size p = true <->
      (x - IZR size / 2 < pl_x p < x + IZR size / 2) /\
      (y - IZR size / 2 < pl_y p < y + IZR size / 2))
  /\
  (forall (h : HomeObj) (x y : R),
      Home.contains h x y = true <->
      (IZR (home_x h) - IZR (home_size h) / 2 <= x
         <= IZR (home_x h) + IZR (home_size h) / 2) /\
      (IZR (home_y h) - IZR (home_size h) / 2 <= y
         <= IZR (home_y h) + IZR (home_size h) / 2))
  /\
  (forall (cx cy size : Z) (p : PlayerObj),
      let x1 := IZR cx - IZR size / 2 in
      let x2 := IZR cx + IZR size / 2 in
      let y1 := IZR cy - IZR size / 2 in
      let y2 := IZR cy + IZR size / 2 in
      x1 <= pl_x p <= x2 -> y1 <= pl_y p <= y2 ->
      pl_x p = x1 \/ pl_x p = x2 \/ pl_y p = y1 \/ pl_y p = y2 ->
      Home.contains (mkHome cx cy size) (pl_x p) (pl_y p) = true /\
      Enemy.hits_player (IZR cx) (IZR cy) size p = false).
Proof.
  split; [exact hits_player_spec | split; [exact contains_spec |]].
  intros cx cy size p x1 x2 y1 y2 Hx Hy Hedge. split.
  - apply contains_spec. cbn. subst x1 x2 y1 y2. lra.
  - apply not_true_is_false. intros Hhit.
    apply hits_player_spec in Hhit. subst x1 x2 y1 y2. lra.
Qed.

End Collision.

(** ** Chasing enemy *)

Section Chasing.

Local Open Scope R_scope.

Lemma chasing_update_player (g : Game) (e : ChasingObj) :
  player (snd (ChasingEnemy.update g e)) = player g.
Proof.
  unfold ChasingEnemy.update, Enemy.check_hit. cbn.
  match goal with |- context [if ?c then _ else _] => destruct c end;
    reflexivity.
Qed.

Lemma chasing_update_speed (g : Game) (e : ChasingObj) :
  ch_speed (fst (ChasingEnemy.update g e)) = ch_speed e.
Proof. reflexivity. Qed.

Lemma chasing_step_distance (g : Game) (e : ChasingObj) :
  (pl_x (player g), pl_y (player g)) <> (ch_x e, ch_y e) ->
  chaser_distance g (fst (ChasingEnemy.update g e))
  = Rabs (chaser_distance g e - IZR (ch_speed e)).
Proof.
  intros Hne. unfold chaser_distance, ChasingEnemy.update. cbn.
  apply pursuit_distance.
  destruct (Req_dec (pl_x (player g) - ch_x e) 0) as [Hx | Hx]; [| now left].
  destruct (Req_dec (pl_y (player g) - ch_y e) 0) as [Hy | Hy]; [| now right].
  exfalso. apply Hne. f_equal; lra.
Qed.

(** C1 (as amended): a chaser of speed 3 that is not on the player ends one
    update at distance [|d - 3|] from the player, [d] being the distance
    before; when [d] is at least 3 this is [d - 3], strictly closer. *)
Theorem C1_chasing_step (g : Game) (e : ChasingObj) :
  ch_speed e = 3%Z ->
  (pl_x (player g), pl_y (player g)) <> (ch_x e, ch_y e) ->
  let e' := fst (ChasingEnemy.update g e) in
  chaser_distance g e' = Rabs (chaser_distance g e - 3) /\
  (3 <= chaser_distance g e ->
   chaser_distance g e' = chaser_distance g e - 3 /\
   chaser_distance g e' < chaser_distance g e).
Proof.
  intros Hs Hne e'. subst e'.
  rewrite (chasing_step_distance g e Hne), Hs.
  split; [reflexivity |].
  intros Hd. rewrite Rabs_right by lra. lra.
Qed.

(** The player stands four units east of the chaser. *)
Lemma C1_chasing_step_witness :
  let g := set_player (new_game 800 600 1) (mkPlayer 104 100 0 5) in
  let e := ChasingEnemy.set_pos (ChasingEnemy.init g 20 "green") 100 100 in
  let e' := fst (ChasingEnemy.update g e) in
  chaser_distance g e' = Rabs (chaser_distance g e - 3) /\
  (3 <= chaser_distance g e ->
   chaser_distance g e' = chaser_distance g e - 3 /\
   chaser_distance g e' < chaser_distance g e).
Proof.
  apply C1_chasing_step.
  - reflexivity.
  - cbn. intros H. injection H. lra.
Defined.

(** A chaser that stands one unit west of the player jumps over the player
    and ends two units east of it: farther away than before. *)
Lemma C1_counterexample :
  let g := set_player (new_game 800 600 1) (mkPlayer 101 100 0 5) in
  let e := ChasingEnemy.set_pos (ChasingEnemy.init g 20 "green") 100 100 in
  let e' := fst (ChasingEnemy.update g e) in
  (pl_x (player g), pl_y (player g)) <> (ch_x e, ch_y e) /\
  chaser_distance g e = 1 /\
  chaser_distance g e' = 2 /\
  ~ chaser_distance g e' < chaser_distance g e /\
  chaser_distance g e' <> chaser_distance g e - 3.
Proof.
  intros g e e'.
  assert (Hne : (pl_x (player g), pl_y (player g)) <> (ch_x e, ch_y e)).
  { cbn. intros H. injection H. lra. }
  assert (Hd : chaser_distance g e = 1).
  { unfold chaser_distance. cbn. apply hypot_unique; lra. }
  assert (Hd' : chaser_distance g e' = 2).
  { subst e'. rewrite (chasing_step_distance g e Hne), Hd. cbn.
    replace (1 - 3) with (- (2)) by ring. rewrite Rabs_Ropp.
    apply Rabs_right. lra. }
  rewrite Hd, Hd'. repeat split; try assumption; lra.
Qed.

End Chasing.

(** ** Player movement *)

Section PlayerMovement.

Local Open Scope R_scope.

Lemma after_home_check_waypoint (g : Game) :
  waypoint (after_home_check g) = waypoint g.
Proof. unfold after_home_check. destruct (Home.contains _ _ _); reflexivity. Qed.

Lemma after_home_check_player (g : Game) :
  player (after_home_check g) = player g.
Proof. unfold after_home_check. destruct (Home.contains _ _ _); reflexivity. Qed.

Lemma update_active (g : Game) :
  wp_active (waypoint g) = true ->
  player (Player.update g) = stepped g /\
  wp_active (waypoint (Player.update g))
  = negb (Rltb (Player.distance (stepped g) (wp_x (waypoint g)) (wp_y (waypoint g)))
               (pl_speed (player g))) /\
  wp_x (waypoint (Player.update g)) = wp_x (waypoint g) /\
  wp_y (waypoint (Player.update g)) = wp_y (waypoint g).
Proof.
  intros Hact. unfold Player.update. fold (after_home_check g).
  cbv zeta. unfold Waypoint.is_active.
  rewrite !after_home_check_waypoint, !after_home_check_player, Hact.
  fold (stepped g).
  replace (pl_speed (stepped g)) with (pl_speed (player g)) by reflexivity.
  destruct (Rltb _ _); cbn; rewrite ?after_home_check_waypoint, ?Hact; auto.
Qed.

Lemma update_inactive (g : Game) :
  wp_active (waypoint g) = false ->
  player (Player.update g) = player g /\ waypoint (Player.update g) = waypoint g.
Proof.
  intros Hact. unfold Player.update. fold (after_home_check g).
  cbv zeta. unfold Waypoint.is_active.
  rewrite after_home_check_waypoint, Hact.
  rewrite after_home_check_waypoint, after_home_check_player. auto.
Qed.



End PlayerMovement.

Section PlayerExamples.

Local Open Scope R_scope.

Lemma game0_player : player game0 = mkPlayer 50 300 0 5.
Proof. reflexivity. Qed.




End PlayerExamples.

(** ** Fencing enemy *)

Section Fencing.

Local Open Scope Z_scope.

Lemma fencing_update_call_move (g : Game) (e : FencingObj) :
  result_map fst (FencingEnemy.update g e) = FencingEnemy.call_move e.
Proof.
  unfold FencingEnemy.update. destruct (FencingEnemy.call_move e); reflexivity.
Qed.

Lemma fencing_updates_run (gs : list Game) (e : FencingObj) :
  fencing_updates gs e = fencing_run (List.length gs) e.
Proof.
  revert e. induction gs as [| g gs IH]; intros e; [reflexivity |].
  cbn [fencing_updates fencing_run List.length].
  rewrite <- (fencing_update_call_move g e).
  destruct (FencingEnemy.update g e) as [[e' g'] | x]; cbn; [apply IH | reflexivity].
Qed.

Lemma fencing_run_add (n m : nat) (e : FencingObj) :
  fencing_run (n + m) e = (e' <- fencing_run n e ;; fencing_run m e').
Proof.
  revert e. induction n as [| n IH]; intros e; [reflexivity |].
  cbn [Nat.add fencing_run].
  destruct (FencingEnemy.call_move e); cbn; [apply IH | reflexivity].
Qed.

Lemma fencing_create_start (g : Game) (e : FencingObj) (draw : Z) :
  FencingEnemy.create g e draw = Ok (fencing_start e (draw mod 4)).
Proof.
  unfold FencingEnemy.create, random.randint. cbn [Z.leb Z.compare bind].
  change (3 - 0 + 1) with 4. rewrite Z.add_0_l.
  pose proof (Z.mod_pos_bound draw 4 eq_refl) as Hk.
  assert (Hcase : draw mod 4 = 0 \/ draw mod 4 = 1 \/ draw mod 4 = 2
                  \/ draw mod 4 = 3) by lia.
  destruct Hcase as [-> | [-> | [-> | ->]]]; reflexivity.
Qed.

Lemma fencing_start_inv (g : Game) (size : Z) (color : string) (k : Z) :
  fencing_inv (fencing_start (FencingEnemy.init g size color) k).
Proof.
  unfold fencing_start, fencing_inv.
  destruct (k =? 0); [| destruct (k =? 1); [| destruct (k =? 2)]];
    cbn; lia.
Qed.

Ltac fencing_leg :=
  match goal with
  | |- context [if ?c then _ else _] =>
      let H := fresh "Hc" in destruct c eqn:H; cbn in *;
      [ first [apply Z.ltb_lt in H | apply Z.gtb_lt in H]
      | first [apply Z.ltb_ge in H | rewrite Z.gtb_ltb in H; apply Z.ltb_ge in H] ]
  end.

Lemma fencing_step_inv (e : FencingObj) :
  fencing_inv e ->
  exists e', FencingEnemy.call_move e = Ok e' /\ fencing_inv e' /\
             fe_homex e' = fe_homex e /\ fe_homey e' = fe_homey e /\
             (forall l, fe_move e = Some l ->
                        fe_move e' = Some (if fencing_beyond e' l
                                           then fencing_cycle l else l)).
Proof.
  destruct e as [x y sz col sp hx hy off mv].
  unfold fencing_inv. cbn. intros (Hsp & Hoff & Hleg). subst sp off.
  destruct mv as [[ | | | ] |]; [| | | | contradiction];
    unfold FencingEnemy.call_move; cbn;
    eexists; (split; [reflexivity |]);
    unfold FencingEnemy.up, FencingEnemy.right, FencingEnemy.down,
      FencingEnemy.left; cbn;
    fencing_leg;
    (repeat split; try lia;
     intros l Hl; injection Hl as <-; unfold fencing_beyond; cbn;
     first [ rewrite (proj2 (Z.ltb_lt _ _)) by lia
           | rewrite (proj2 (Z.ltb_ge _ _)) by lia
           | rewrite Z.gtb_ltb, (proj2 (Z.ltb_lt _ _)) by lia
           | rewrite Z.gtb_ltb, (proj2 (Z.ltb_ge _ _)) by lia ];
     reflexivity).
Qed.

Lemma fencing_run_inv (n : nat) (e : FencingObj) :
  fencing_inv e ->
  exists e', fencing_run n e = Ok e' /\ fencing_inv e' /\
             fe_homex e' = fe_homex e /\ fe_homey e' = fe_homey e.
Proof.
  revert e. induction n as [| n IH]; intros e Hinv.
  - exists e. auto.
  - destruct (fencing_step_inv Hinv) as (e1 & Hstep & Hinv1 & Hx1 & Hy1 & _).
    destruct (IH e1 Hinv1) as (e' & Hrun & Hinv' & Hx & Hy).
    exists e'. cbn [fencing_run]. rewrite Hstep. cbn.
    split; [exact Hrun | split; [exact Hinv' | split; congruence]].
Qed.

Lemma fencing_inv_square (e : FencingObj) :
  fencing_inv e -> within_square 62 e = true.
Proof.
  unfold fencing_inv, within_square. intros (_ & _ & Hleg).
  rewrite !andb_true_iff, !Z.leb_le.
  destruct (fe_move e) as [[ | | | ] |]; cbn in Hleg; lia.
Qed.

Lemma fencing_call_move_shift (dx dy : Z) (e : FencingObj) :
  FencingEnemy.call_move (fencing_shift dx dy e)
  = result_map (fencing_shift dx dy) (FencingEnemy.call_move e).
Proof.
  destruct e as [x y sz col sp hx hy off mv].
  destruct mv as [[ | | | ] |]; [| | | | reflexivity];
    unfold FencingEnemy.call_move, fencing_shift; cbn; f_equal;
    unfold FencingEnemy.up, FencingEnemy.right, FencingEnemy.down,
      FencingEnemy.left; cbn; rewrite ?Z.gtb_ltb;
    repeat match goal with
           | |- context [(?a <? ?b)] => destruct (Z.ltb_spec a b)
           end;
    try lia; unfold FencingEnemy.set_move, FencingEnemy.set_pos; cbn;
    f_equal; lia.
Qed.

Lemma fencing_run_shift (dx dy : Z) (n : nat) (e : FencingObj) :
  fencing_run n (fencing_shift dx dy e)
  = result_map (fencing_shift dx dy) (fencing_run n e).
Proof.
  revert e. induction n as [| n IH]; intros e; [reflexivity |].
  cbn [fencing_run]. rewrite fencing_call_move_shift.
  destruct (FencingEnemy.call_move e); cbn; [apply IH | reflexivity].
Qed.

Lemma fencing_leg_after_shift (dx dy : Z) (n : nat) (e : FencingObj) :
  fencing_leg_after n (fencing_shift dx dy e) = fencing_leg_after n e.
Proof.
  unfold fencing_leg_after. rewrite fencing_run_shift.
  destruct (fencing_run n e); reflexivity.
Qed.

Lemma fencing_start_shift (g : Game) (size : Z) (color : string) (k : Z) :
  fencing_start (FencingEnemy.init g size color) k
  = fencing_shift (home_x (home g)) (home_y (home g))
      (fencing_start (fencing_at_origin size color) k).
Proof.
  unfold fencing_start, fencing_shift.
  destruct (k =? 0); [| destruct (k =? 1); [| destruct (k =? 2)]];
    unfold FencingEnemy.set_move, FencingEnemy.set_pos;
    cbn -[Z.add Z.sub]; f_equal; lia.
Qed.

(** The legs of the patrol around the origin, from each canonical start. *)
Lemma fencing_legs_at_origin (size : Z) (color : string) (k : Z) :
  0 <= k <= 3 ->
  let e0 := fencing_start (fencing_at_origin size color) k in
  exists l0, fe_move e0 = Some l0 /\
    fencing_leg_after 31 e0 = Some (fencing_cycle l0) /\
    fencing_leg_after 92 e0 = Some (fencing_cycle (fencing_cycle l0)) /\
    fencing_leg_after 154 e0
      = Some (fencing_cycle (fencing_cycle (fencing_cycle l0))) /\
    fencing_leg_after 216 e0 = Some l0.
Proof.
  intros Hk e0.
  assert (Hcase : k = 0 \/ k = 1 \/ k = 2 \/ k = 3) by lia.
  destruct Hcase as [-> | [-> | [-> | ->]]]; subst e0;
    eexists; (split; [reflexivity |]); vm_compute; auto.
Qed.

Lemma fencing_start_home (e : FencingObj) (k : Z) :
  fe_homex (fencing_start e k) = fe_homex e /\
  fe_homey (fencing_start e k) = fe_homey e.
Proof.
  unfold fencing_start.
  destruct (k =? 0); [| destruct (k =? 1); [| destruct (k =? 2)]];
    split; reflexivity.
Qed.

(** C4 (as amended): a fencing enemy created at any of its four canonical
    starts runs every sequence of [update()] calls without error and stays in
    the square of half-width [off_from_home + speed] = 62 around the home
    position it captured; each update either keeps the leg or, exactly when
    the moved coordinate is strictly beyond the boundary of the leg, switches
    to the next leg of the order up, right, down, left, up; and the patrol
    does go through all four legs: after 31, 92, 154 and 216 updates the
    enemy is on the first, second and third successor of its starting leg and
    back on the starting leg. *)
Theorem C4_fencing_patrol (g : Game) (size : Z) (color : string) (draw : Z) :
  exists e0 l0,
    FencingEnemy.create g (FencingEnemy.init g size color) draw = Ok e0 /\
    fe_move e0 = Some l0 /\
    (forall gs : list Game,
        exists e l,
          fencing_updates gs e0 = Ok e /\
          within_square 62 e = true /\
          fe_homex e = home_x (home g) /\ fe_homey e = home_y (home g) /\
          fe_move e = Some l /\
          forall g1 : Game,
            exists e' g1',
              FencingEnemy.update g1 e = Ok (e', g1') /\
              fe_move e'
              = Some (if fencing_beyond e' l then fencing_cycle l else l)) /\
    (forall (gs : list Game) (e : FencingObj),
        fencing_updates gs e0 = Ok e ->
        (List.length gs = 31%nat -> fe_move e = Some (fencing_cycle l0)) /\
        (List.length gs = 92%nat ->
         fe_move e = Some (fencing_cycle (fencing_cycle l0))) /\
        (List.length gs = 154%nat ->
         fe_move e = Some (fencing_cycle (fencing_cycle (fencing_cycle l0)))) /\
        (List.length gs = 216%nat -> fe_move e = Some l0)).
Proof.
  pose proof (Z.mod_pos_bound draw 4 eq_refl) as Hk.
  set (k := draw mod 4) in *.
  set (e0 := fencing_start (FencingEnemy.init g size color) k).
  assert (Hinv0 : fencing_inv e0) by apply fencing_start_inv.
  destruct (@fencing_legs_at_origin size color k ltac:(lia))
    as (l0 & Hl0 & H31 & H92 & H154 & H216).
  assert (Hlegs : forall n, fencing_leg_after n e0
            = fencing_leg_after n (fencing_start (fencing_at_origin size color) k)).
  { intros n. unfold e0. rewrite fencing_start_shift.
    apply fencing_leg_after_shift. }
  exists e0, l0. split; [apply fencing_create_start |].
  split.
  { unfold e0. rewrite fencing_start_shift. exact Hl0. }
  split.
  - intros gs. rewrite fencing_updates_run.
    destruct (fencing_run_inv (List.length gs) Hinv0)
      as (e & Hrun & Hinv & Hx & Hy).
    destruct (fencing_step_inv Hinv) as (e' & Hstep & _ & _ & _ & Hleg).
    assert (Hsome : exists l, fe_move e = Some l).
    { destruct Hinv as (_ & _ & Hm).
      destruct (fe_move e) as [l |]; [now exists l | contradiction]. }
    destruct Hsome as (l & Hl).
    exists e, l. split; [exact Hrun |].
    split; [now apply fencing_inv_square |].
    split; [rewrite Hx; apply fencing_start_home |].
    split; [rewrite Hy; apply fencing_start_home |].
    split; [exact Hl |].
    intros g1. unfold FencingEnemy.update. rewrite Hstep. cbn.
    eexists _, _. split; [reflexivity | now apply Hleg].
  - intros gs e Hrun. rewrite fencing_updates_run in Hrun.
    assert (Hafter : fencing_leg_after (List.length gs) e0 = fe_move e).
    { unfold fencing_leg_after. now rewrite Hrun. }
    repeat split; intros Hlen; rewrite Hlen in Hafter;
      rewrite <- Hafter, Hlegs; assumption.
Qed.

(** From the start below the home of [game0], moving left, the 31st update
    puts the enemy at x = 638, two units outside the square of half-width 60
    around the home at (700, 300). *)
Lemma C4_counterexample :
  exists e0 e,
    FencingEnemy.create game0 (FencingEnemy.init game0 20 "blue") 0 = Ok e0 /\
    fencing_updates (repeat game0 31) e0 = Ok e /\
    (fe_homex e, fe_homey e, fe_off_from_home e) = (700, 300, 60) /\
    (fe_x e, fe_y e) = (638, 360) /\
    within_square (fe_off_from_home e) e = false.
Proof.
  eexists _, _. split; [apply fencing_create_start |].
  rewrite fencing_updates_run. split; [vm_compute; reflexivity |].
  vm_compute. auto.
Qed.

End Fencing.

(** ** Blocker enemy *)

Section Blocker.

Local Open Scope R_scope.

Lemma Rltb_IZR (a b : Z) : Rltb (IZR a) (IZR b) = (a <? b)%Z.
Proof.
  destruct (Z.ltb_spec a b) as [H | H].
  - apply Rltb_true_iff. now apply IZR_lt.
  - apply Rltb_false_iff. now apply IZR_le.
Qed.

Lemma Rgtb_IZR (a b : Z) : Rgtb (IZR a) (IZR b) = (a >? b)%Z.
Proof. unfold Rgtb. rewrite Rltb_IZR. symmetry. apply Z.gtb_ltb. Qed.

Lemma blocker_update_call_move (g : Game) (e : BlockerObj) :
  result_map fst (BlockerEnemy.update g e) = BlockerEnemy.call_move e.
Proof.
  unfold BlockerEnemy.update. destruct (BlockerEnemy.call_move e); reflexivity.
Qed.

Lemma blocker_call_move_spec (e : BlockerObj) (l : Leg) :
  bl_move e = Some l ->
  exists e', BlockerEnemy.call_move e = Ok e' /\
    bl_player_x e' = bl_player_x e /\ bl_player_y e' = bl_player_y e /\
    bl_speed e' = bl_speed e /\
    bl_off_from_player e' = bl_off_from_player e /\
    bl_x e' = (match l with
               | LegRight => bl_x e + IZR (bl_speed e)
               | LegLeft => bl_x e - IZR (bl_speed e)
               | _ => bl_x e
               end) /\
    bl_y e' = (match l with
               | LegUp => bl_y e - IZR (bl_speed e)
               | LegDown => bl_y e + IZR (bl_speed e)
               | _ => bl_y e
               end) /\
    bl_move e' = Some (if blocker_beyond e' l then blocker_switch l else l).
Proof.
  intros Hl. unfold BlockerEnemy.call_move. rewrite Hl.
  destruct l; eexists; (split; [reflexivity |]);
    unfold BlockerEnemy.up, BlockerEnemy.right, BlockerEnemy.down,
      BlockerEnemy.left, blocker_beyond; cbv zeta;
    match goal with
    | |- context [if ?c then _ else _] => destruct c eqn:Hc
    end; cbn in *; rewrite ?Hc; repeat split; auto.
Qed.

Lemma blocker_create_spec (g : Game) (e : BlockerObj) (draw : Z) :
  exists e0 l0,
    BlockerEnemy.create g e draw = Ok e0 /\ bl_move e0 = Some l0 /\
    bl_player_x e0 = bl_player_x e /\ bl_player_y e0 = bl_player_y e /\
    bl_speed e0 = bl_speed e /\
    bl_off_from_player e0 = bl_off_from_player e /\
    let off := IZR (bl_off_from_player e) in
    (bl_x e0, bl_y e0, l0) = (bl_player_x e, bl_player_y e + off, LegLeft) \/
    (bl_x e0, bl_y e0, l0) = (bl_player_x e + off, bl_player_y e, LegDown) \/
    (bl_x e0, bl_y e0, l0) = (bl_player_x e, bl_player_y e - off, LegRight) \/
    (bl_x e0, bl_y e0, l0) = (bl_player_x e - off, bl_player_y e, LegUp).
Proof.
  unfold BlockerEnemy.create, random.randint. cbn [Z.leb Z.compare bind].
  change (3 - 0 + 1)%Z with 4%Z. rewrite Z.add_0_l.
  pose proof (Z.mod_pos_bound draw 4 eq_refl) as Hk.
  assert (Hcase : (draw mod 4 = 0 \/ draw mod 4 = 1 \/ draw mod 4 = 2
                   \/ draw mod 4 = 3)%Z) by lia.
  destruct Hcase as [-> | [-> | [-> | ->]]]; cbn;
    eexists _, _; (split; [reflexivity |]); cbn; repeat split; auto.
Qed.

Lemma blocker_like_fencing (f : FencingObj) (l : Leg) :
  fe_move f = Some l ->
  exists f' e',
    FencingEnemy.call_move f = Ok f' /\
    BlockerEnemy.call_move (blocker_of_fencing f) = Ok e' /\
    bl_x e' = IZR (fe_x f') /\ bl_y e' = IZR (fe_y f') /\
    blocker_beyond e' l = fencing_beyond f' l /\
    fe_move f' = Some (if fencing_beyond f' l then fencing_cycle l else l) /\
    bl_move e' = Some (if fencing_beyond f' l then blocker_switch l else l).
Proof.
  intros Hl.
  destruct f as [x y sz col sp hx hy off mv]. cbn in Hl. subst mv.
  unfold FencingEnemy.call_move, BlockerEnemy.call_move, blocker_of_fencing.
  cbn [fe_move bl_move].
  destruct l; eexists _, _; (split; [reflexivity |]); (split; [reflexivity |]);
    unfold BlockerEnemy.up, BlockerEnemy.right, BlockerEnemy.down,
      BlockerEnemy.left, FencingEnemy.up, FencingEnemy.right,
      FencingEnemy.down, FencingEnemy.left, blocker_beyond, fencing_beyond;
    cbn -[Z.add Z.sub Z.ltb Z.gtb];
    rewrite <- ?minus_IZR, <- ?plus_IZR, ?Rltb_IZR, ?Rgtb_IZR;
    match goal with
    | |- context [if ?c then _ else _] => destruct c eqn:Hc
    end; cbn -[Z.add Z.sub Z.ltb Z.gtb];
    rewrite <- ?minus_IZR, <- ?plus_IZR, ?Rltb_IZR, ?Rgtb_IZR, ?Hc;
    repeat split; auto.
Qed.

Lemma blocker_switch_happens (l : Leg) :
  bl_move (blocker_on_boundary l) = Some l /\
  result_map bl_move (BlockerEnemy.call_move (blocker_on_boundary l))
  = Ok (Some (blocker_switch l)).
Proof.
  split; [destruct l; reflexivity |].
  assert (Hl : bl_move (blocker_on_boundary l) = Some l)
    by (destruct l; reflexivity).
  destruct (blocker_call_move_spec _ Hl)
    as (e' & Hcall & Hpx & Hpy & Hsp & Hoff & Hx & Hy & Hmv).
  rewrite Hcall. cbn [result_map]. rewrite Hmv. do 2 f_equal.
  assert (Hb : blocker_beyond e' l = true).
  { unfold blocker_beyond. rewrite Hpx, Hpy, Hoff, Hx, Hy.
    destruct l; cbn; unfold Rgtb; apply Rltb_true_iff; lra. }
  now rewrite Hb.
Qed.

Lemma blocker_create_by_index (g : Game) (e : BlockerObj) (draw : Z) :
  exists e0 l0,
    BlockerEnemy.create g e draw = Ok e0 /\ bl_move e0 = Some l0 /\
    bl_player_x e0 = bl_player_x e /\ bl_player_y e0 = bl_player_y e /\
    bl_speed e0 = bl_speed e /\
    bl_off_from_player e0 = bl_off_from_player e /\
    bl_size e0 = bl_size e /\ bl_color e0 = bl_color e /\
    let off := IZR (bl_off_from_player e) in
    let px := bl_player_x e in
    let py := bl_player_y e in
    (bl_x e0, bl_y e0, l0)
    = (if (draw mod 4 =? 0)%Z then (px, py + off, LegLeft)
       else if (draw mod 4 =? 1)%Z then (px + off, py, LegDown)
       else if (draw mod 4 =? 2)%Z then (px, py - off, LegRight)
       else (px - off, py, LegUp)).
Proof.
  unfold BlockerEnemy.create, random.randint. cbn [Z.leb Z.compare bind].
  change (3 - 0 + 1)%Z with 4%Z. rewrite Z.add_0_l.
  pose proof (Z.mod_pos_bound draw 4 eq_refl) as Hk.
  assert (Hcase : (draw mod 4 = 0 \/ draw mod 4 = 1 \/ draw mod 4 = 2
                   \/ draw mod 4 = 3)%Z) by lia.
  destruct Hcase as [-> | [-> | [-> | ->]]]; cbn;
    eexists _, _; (split; [reflexivity |]); cbn; repeat split; auto.
Qed.

(** C5: the blocker captures the player's position in its constructor, with
    half-width 60 and speed 7; its creation hook places it on one of the
    four edge starts, 60 units from the captured position, with the leg of
    that start, and keeps the anchor; every update moves it by its speed
    along its leg and keeps the anchor, whatever the player's position has
    become, and the enemy's motion does not depend on the session it is
    updated in; each leg moves and tests its boundary as the corresponding
    leg of the fencing enemy does, and the legs switch up to down, right to
    left, down to up and left to right, each of these switches occurring. *)
Theorem C5_blocker_patrol :
  (forall (g : Game) (size : Z) (color : string),
      let e := BlockerEnemy.init g size color in
      bl_player_x e = pl_x (player g) /\ bl_player_y e = pl_y (player g) /\
      bl_off_from_player e = 60%Z /\ bl_speed e = 7%Z)
  /\
  (forall (g : Game) (e : BlockerObj) (draw : Z),
      exists e0 l0,
        BlockerEnemy.create g e draw = Ok e0 /\ bl_move e0 = Some l0 /\
        bl_player_x e0 = bl_player_x e /\ bl_player_y e0 = bl_player_y e /\
        bl_speed e0 = bl_speed e /\
        bl_off_from_player e0 = bl_off_from_player e /\
        bl_size e0 = bl_size e /\ bl_color e0 = bl_color e /\
        let off := IZR (bl_off_from_player e) in
        let px := bl_player_x e in
        let py := bl_player_y e in
        (bl_x e0, bl_y e0, l0)
        = (if (draw mod 4 =? 0)%Z then (px, py + off, LegLeft)
           else if (draw mod 4 =? 1)%Z then (px + off, py, LegDown)
           else if (draw mod 4 =? 2)%Z then (px, py - off, LegRight)
           else (px - off, py, LegUp)))
  /\
  (forall (g1 : Game) (e : BlockerObj) (l : Leg),
      bl_move e = Some l ->
      exists e' g1',
        BlockerEnemy.update g1 e = Ok (e', g1') /\
        bl_player_x e' = bl_player_x e /\ bl_player_y e' = bl_player_y e /\
        bl_speed e' = bl_speed e /\
        bl_off_from_player e' = bl_off_from_player e /\
        bl_x e' = (match l with
                   | LegRight => bl_x e + IZR (bl_speed e)
                   | LegLeft => bl_x e - IZR (bl_speed e)
                   | _ => bl_x e
                   end) /\
        bl_y e' = (match l with
                   | LegUp => bl_y e - IZR (bl_speed e)
                   | LegDown => bl_y e + IZR (bl_speed e)
                   | _ => bl_y e
                   end) /\
        bl_move e' = Some (if blocker_beyond e' l then blocker_switch l else l) /\
        forall g2 : Game, result_map fst (BlockerEnemy.update g2 e) = Ok e')
  /\
  (forall (f : FencingObj) (l : Leg),
      fe_move f = Some l ->
      exists f' e',
        FencingEnemy.call_move f = Ok f' /\
        BlockerEnemy.call_move (blocker_of_fencing f) = Ok e' /\
        bl_x e' = IZR (fe_x f') /\ bl_y e' = IZR (fe_y f') /\
        blocker_beyond e' l = fencing_beyond f' l /\
        fe_move f' = Some (if fencing_beyond f' l then fencing_cycle l else l) /\
        bl_move e' = Some (if fencing_beyond f' l then blocker_switch l else l))
  /\
  (forall l : Leg,
      bl_move (blocker_on_boundary l) = Some l /\
      result_map bl_move (BlockerEnemy.call_move (blocker_on_boundary l))
      = Ok (Some (blocker_switch l)))
  /\
  (blocker_switch LegUp, blocker_switch LegRight,
   blocker_switch LegDown, blocker_switch LegLeft)
  = (LegDown, LegLeft, LegUp, LegRight).
Proof.
  split; [intros g size color; cbn; auto |].
  split.
  { intros g e draw. exact (blocker_create_by_index g e draw). }
  split.
  { intros g1 e l Hl.
    destruct (blocker_call_move_spec e Hl)
      as (e' & Hcall & Hpx & Hpy & Hsp & Hoff & Hx & Hy & Hmv).
    unfold BlockerEnemy.update at 1. rewrite Hcall. cbn [bind].
    eexists _, _. split; [reflexivity |].
    repeat (split; [assumption |]).
    intros g2. now rewrite blocker_update_call_move. }
  split; [exact blocker_like_fencing |].
  split; [exact blocker_switch_happens | reflexivity].
Qed.

End Blocker.

(** ** Random walk enemy *)

Section RandomWalk.

Local Open Scope Z_scope.

Lemma call_xmove_spec (g : Game) (e : RandomWalkObj) :
  let e' := RandomWalkEnemy.call_xmove g e in
  rw_speed e' = rw_speed e /\ rw_size e' = rw_size e /\
  rw_y e' = rw_y e /\ rw_ymove e' = rw_ymove e /\
  rw_x e' = (match rw_xmove e with
             | XLeft => rw_x e - rw_speed e
             | XRight => rw_x e + rw_speed e
             end) /\
  rw_xmove e' = (match rw_xmove e with
                 | XLeft => if rw_x e' <? 0 then XRight else XLeft
                 | XRight => if rw_x e' >? screen_width g then XLeft else XRight
                 end).
Proof.
  destruct e as [x y sz col sp xm ym].
  unfold RandomWalkEnemy.call_xmove, RandomWalkEnemy.x_left,
    RandomWalkEnemy.x_right, RandomWalkEnemy.set_pos,
    RandomWalkEnemy.set_xmove.
  destruct xm; cbn -[Z.add Z.sub Z.ltb Z.gtb].
  - destruct (x - sp <? 0) eqn:H; cbn -[Z.add Z.sub Z.ltb Z.gtb];
      rewrite ?H; repeat split; reflexivity.
  - destruct (x + sp >? screen_width g) eqn:H; cbn -[Z.add Z.sub Z.ltb Z.gtb];
      rewrite ?H; repeat split; reflexivity.
Qed.

Lemma call_ymove_spec (g : Game) (e : RandomWalkObj) :
  let e' := RandomWalkEnemy.call_ymove g e in
  rw_speed e' = rw_speed e /\ rw_size e' = rw_size e /\
  rw_x e' = rw_x e /\ rw_xmove e' = rw_xmove e /\
  rw_y e' = (match rw_ymove e with
             | YUp => rw_y e - rw_speed e
             | YDown => rw_y e + rw_speed e
             end) /\
  rw_ymove e' = (match rw_ymove e with
                 | YUp => if rw_y e' <=? 0 then YDown else YUp
                 | YDown => if rw_y e' >? screen_height g then YUp else YDown
                 end).
Proof.
  destruct e as [x y sz col sp xm ym].
  unfold RandomWalkEnemy.call_ymove, RandomWalkEnemy.y_up,
    RandomWalkEnemy.y_down, RandomWalkEnemy.set_pos,
    RandomWalkEnemy.set_ymove.
  destruct ym; cbn -[Z.add Z.sub Z.leb Z.gtb].
  - destruct (y - sp <=? 0) eqn:H; cbn -[Z.add Z.sub Z.leb Z.gtb];
      rewrite ?H; repeat split; reflexivity.
  - destruct (y + sp >? screen_height g) eqn:H; cbn -[Z.add Z.sub Z.leb Z.gtb];
      rewrite ?H; repeat split; reflexivity.
Qed.

(** What one update does to a random walk enemy: both coordinates move by
    [speed] along their directions; the horizontal direction reverses when
    the new [x] is below 0 or above the width, the vertical one when the new
    [y] is above the height or, on the way up, when it is at most 0. *)
Lemma randomwalk_update_spec (g : Game) (e : RandomWalkObj) :
  let e' := fst (RandomWalkEnemy.update g e) in
  rw_speed e' = rw_speed e /\
  rw_x e' = (match rw_xmove e with
             | XLeft => rw_x e - rw_speed e
             | XRight => rw_x e + rw_speed e
             end) /\
  rw_y e' = (match rw_ymove e with
             | YUp => rw_y e - rw_speed e
             | YDown => rw_y e + rw_speed e
             end) /\
  rw_xmove e' = (match rw_xmove e with
                 | XLeft => if rw_x e' <? 0 then XRight else XLeft
                 | XRight => if rw_x e' >? screen_width g then XLeft else XRight
                 end) /\
  rw_ymove e' = (match rw_ymove e with
                 | YUp => if rw_y e' <=? 0 then YDown else YUp
                 | YDown => if rw_y e' >? screen_height g then YUp else YDown
                 end).
Proof.
  unfold RandomWalkEnemy.update. cbn [fst].
  pose proof (call_xmove_spec g e) as (Hs1 & _ & Hy1 & Hym1 & Hx1 & Hxm1).
  pose proof (call_ymove_spec g (RandomWalkEnemy.call_xmove g e))
    as (Hs2 & _ & Hx2 & Hxm2 & Hy2 & Hym2).
  set (e1 := RandomWalkEnemy.call_xmove g e) in *.
  set (e2 := RandomWalkEnemy.call_ymove g e1) in *.
  rewrite Hs2, Hs1, Hx2, Hxm2, Hym2, Hy2, Hym1, Hy1, Hs1, Hx1.
  repeat split; try reflexivity.
  rewrite Hxm1, Hx1. reflexivity.
Qed.

Lemma randomwalk_init_speed (g : Game) (size : Z) (color : string) (draw : Z) :
  exists e, RandomWalkEnemy.init g size color draw = Ok e /\
            1 <= rw_speed e <= 5 /\ rw_speed e = 1 + draw mod 5.
Proof.
  unfold RandomWalkEnemy.init, random.randint.
  change (1 <=? 5) with true. change (5 - 1 + 1) with 5. cbn [bind].
  eexists. split; [reflexivity |]. cbn [rw_speed].
  pose proof (Z.mod_pos_bound draw 5 eq_refl). lia.
Qed.

(** C9, at the input on which the code departs from it: in the 800 x 600
    arena a random walk enemy of speed 3 at (3, 3) that moves left and up
    reaches (0, 0); both coordinates are still inside the arena, the
    horizontal direction is kept, but the vertical direction is reversed. *)
Theorem C9_y_up_reverses_inside_arena :
  let e := mkRandomWalk 3 3 20 "red" 3 XLeft YUp in
  let e' := fst (RandomWalkEnemy.update game0 e) in
  (rw_x e', rw_y e') = (0, 0) /\
  0 <= rw_x e' <= screen_width game0 /\
  0 <= rw_y e' <= screen_height game0 /\
  rw_xmove e' = XLeft /\
  rw_ymove e' = YDown.
Proof.
  cbv zeta.
  assert (Hw : screen_width game0 = 800) by reflexivity.
  assert (Hh : screen_height game0 = 600) by reflexivity.
  rewrite Hw, Hh.
  repeat split; try reflexivity; cbn; lia.
Qed.

(** ** Creation hooks of the random walk and chasing enemies *)

Lemma randint_from_0 (w draw : Z) :
  1 <= w ->
  random.randint 0 (w - 1) draw = Ok (draw mod w) /\ 0 <= draw mod w <= w - 1.
Proof.
  intros Hw. unfold random.randint.
  rewrite (proj2 (Z.leb_le 0 (w - 1))) by lia.
  replace (w - 1 - 0 + 1) with w by lia. rewrite Z.add_0_l.
  pose proof (Z.mod_pos_bound draw w ltac:(lia)). split; [reflexivity | lia].
Qed.

Lemma randomwalk_create_spec (g : Game) (e : RandomWalkObj) (d1 d2 : Z) :
  1 <= screen_width g ->
  exists e', RandomWalkEnemy.create g e d1 d2 = Ok e' /\
             rw_x e' = d1 mod screen_width g /\
             rw_y e' = d2 mod screen_width g.
Proof.
  intros Hw. unfold RandomWalkEnemy.create.
  rewrite (proj1 (randint_from_0 d1 Hw)), (proj1 (randint_from_0 d2 Hw)).
  cbn. eexists. split; [reflexivity |]. split; reflexivity.
Qed.

Lemma chasing_create_spec (g : Game) (e : ChasingObj) (d1 d2 : Z) :
  1 <= screen_width g ->
  exists e', ChasingEnemy.create g e d1 d2 = Ok e' /\
             ch_x e' = IZR (d1 mod screen_width g) /\
             ch_y e' = IZR (d2 mod screen_width g).
Proof.
  intros Hw. unfold ChasingEnemy.create.
  rewrite (proj1 (randint_from_0 d1 Hw)), (proj1 (randint_from_0 d2 Hw)).
  cbn. eexists. split; [reflexivity |]. split; reflexivity.
Qed.

(** C10 (as amended): in an arena of positive width [w], the creation hooks
    of the random walk and chasing enemies return, with [x] the value of the
    first draw and [y] the value of the second, both in [0, w - 1], whatever
    the height [h]; every pair of that range is the outcome of the draws
    equal to it; so when [h < w - 1] the draw [w - 1] puts [y] above the
    height, when [h = w - 1] no draw puts [y] above the height and the draw
    [w - 1] puts it on the height, and when [w <= h] no draw lets [y] reach
    the height. *)
Theorem C10_create_draws_from_width (g : Game) (e : RandomWalkObj)
  (c : ChasingObj) (d1 d2 : Z) :
  1 <= screen_width g ->
  let w := screen_width g in
  let h := screen_height g in
  exists e' c',
    RandomWalkEnemy.create g e d1 d2 = Ok e' /\
    ChasingEnemy.create g c d1 d2 = Ok c' /\
    rw_x e' = d1 mod w /\ rw_y e' = d2 mod w /\
    ch_x c' = IZR (d1 mod w) /\ ch_y c' = IZR (d2 mod w) /\
    0 <= d1 mod w <= w - 1 /\ 0 <= d2 mod w <= w - 1 /\
    (0 <= d1 <= w - 1 -> d1 mod w = d1) /\
    (0 <= d2 <= w - 1 -> d2 mod w = d2) /\
    (h < w - 1 -> d2 = w - 1 -> rw_y e' > h /\ (ch_y c' > IZR h)%R) /\
    (h = w - 1 ->
     rw_y e' <= h /\ (ch_y c' <= IZR h)%R /\
     (d2 = w - 1 -> rw_y e' = h /\ ch_y c' = IZR h)) /\
    (w <= h -> rw_y e' < h /\ (ch_y c' < IZR h)%R).
Proof.
  intros Hw w h.
  destruct (randomwalk_create_spec g e d1 d2 Hw) as (e' & He & Hx & Hy).
  destruct (chasing_create_spec g c d1 d2 Hw) as (c' & Hc & Hcx & Hcy).
  pose proof (Z.mod_pos_bound d1 w ltac:(subst w; lia)) as Hb1.
  pose proof (Z.mod_pos_bound d2 w ltac:(subst w; lia)) as Hb2.
  exists e', c'. fold w in Hx, Hy, Hcx, Hcy.
  repeat (split; [first [assumption | lia] |]).
  split; [intros H; apply Z.mod_small; lia |].
  split; [intros H; apply Z.mod_small; lia |].
  split.
  - intros Hlt Hd. subst d2.
    assert (Hm : (w - 1) mod w = w - 1) by (apply Z.mod_small; lia).
    rewrite Hy, Hcy, Hm. split; [lia | apply Rlt_gt, IZR_lt; lia].
  - split.
    + intros Heq. rewrite Hy, Hcy.
      split; [lia |]. split; [apply IZR_le; lia |].
      intros Hd. subst d2.
      assert (Hm : (w - 1) mod w = w - 1) by (apply Z.mod_small; lia).
      rewrite Hm. split; [lia | f_equal; lia].
    + intros Hle. rewrite Hy, Hcy. split; [lia | apply IZR_lt; lia].
Qed.

(** In an arena without positive width the range of the draw is empty and
    both creation hooks raise [ValueError]. *)
Lemma create_raises_on_empty_range (g : Game) (e : RandomWalkObj)
  (c : ChasingObj) (d1 d2 : Z) :
  screen_width g <= 0 ->
  RandomWalkEnemy.create g e d1 d2 = Raise ValueError /\
  ChasingEnemy.create g c d1 d2 = Raise ValueError.
Proof.
  intros Hw. unfold RandomWalkEnemy.create, ChasingEnemy.create,
    random.randint.
  rewrite (proj2 (Z.leb_gt 0 (screen_width g - 1))) by lia.
  split; reflexivity.
Qed.

(** The 800 x 600 arena with the draws 5 and 799: [y] is drawn from
    [0, 799] and here exceeds the height 600. *)
Lemma C10_create_draws_from_width_witness :
  exists e' c',
    RandomWalkEnemy.create game0 (mkRandomWalk 100 100 20 "red" 3 XRight YDown)
      5 799 = Ok e' /\
    ChasingEnemy.create game0 (mkChasing 100 100 20 "green" 3 0 0) 5 799
    = Ok c' /\
    rw_x e' = 5 mod 800 /\ rw_y e' = 799 mod 800 /\
    ch_x c' = IZR (5 mod 800) /\ ch_y c' = IZR (799 mod 800) /\
    0 <= 5 mod 800 <= 800 - 1 /\ 0 <= 799 mod 800 <= 800 - 1 /\
    (0 <= 5 <= 800 - 1 -> 5 mod 800 = 5) /\
    (0 <= 799 <= 800 - 1 -> 799 mod 800 = 799) /\
    (600 < 800 - 1 -> 799 = 800 - 1 -> rw_y e' > 600 /\ (ch_y c' > 600)%R) /\
    (600 = 800 - 1 ->
     rw_y e' <= 600 /\ (ch_y c' <= 600)%R /\
     (799 = 800 - 1 -> rw_y e' = 600 /\ ch_y c' = 600%R)) /\
    (800 <= 600 -> rw_y e' < 600 /\ (ch_y c' < 600)%R).
Proof.
  apply (@C10_create_draws_from_width game0
           (mkRandomWalk 100 100 20 "red" 3 XRight YDown)
           (mkChasing 100 100 20 "green" 3 0 0) 5 799).
  vm_compute. discriminate.
Defined.

(** The 800 x 799 arena is not square, yet no draw puts the created [y]
    above the height 799 and the draw 799 puts it on the height, so [y]
    neither exceeds the height nor stays short of it; and in an arena of
    width 0 the range of the draw is empty and both hooks raise. *)
Lemma C10_counterexample :
  let g := new_game 800 799 1 in
  screen_width g <> screen_height g /\
  (forall (e : RandomWalkObj) (c : ChasingObj) (d1 d2 : Z),
      exists e' c',
        RandomWalkEnemy.create g e d1 d2 = Ok e' /\
        ChasingEnemy.create g c d1 d2 = Ok c' /\
        rw_y e' <= screen_height g /\ (ch_y c' <= IZR (screen_height g))%R)
  /\
  (exists e' c',
      RandomWalkEnemy.create g (mkRandomWalk 100 100 20 "red" 3 XRight YDown)
        5 799 = Ok e' /\
      ChasingEnemy.create g (mkChasing 100 100 20 "green" 3 0 0) 5 799
      = Ok c' /\
      rw_y e' = screen_height g /\ ch_y c' = IZR (screen_height g))
  /\
  (forall (e : RandomWalkObj) (c : ChasingObj) (d1 d2 : Z),
      RandomWalkEnemy.create (new_game 0 600 1) e d1 d2 = Raise ValueError /\
      ChasingEnemy.create (new_game 0 600 1) c d1 d2 = Raise ValueError).
Proof.
  intros g.
  assert (Hw : 1 <= screen_width g) by (unfold g; cbn; lia).
  split; [unfold g; cbn; lia |].
  split.
  { intros e c d1 d2.
    destruct (randomwalk_create_spec g e d1 d2 Hw) as (e' & He & _ & Hy).
    destruct (chasing_create_spec g c d1 d2 Hw) as (c' & Hc & _ & Hcy).
    exists e', c'. rewrite Hy, Hcy.
    change (screen_width g) with 800. change (screen_height g) with 799.
    pose proof (Z.mod_pos_bound d2 800 eq_refl).
    repeat split; [assumption | assumption | lia | apply IZR_le; lia]. }
  split.
  { destruct (randomwalk_create_spec g
                (mkRandomWalk 100 100 20 "red" 3 XRight YDown) 5 799 Hw)
      as (e' & He & _ & Hy).
    destruct (chasing_create_spec g (mkChasing 100 100 20 "green" 3 0 0)
                5 799 Hw) as (c' & Hc & _ & Hcy).
    exists e', c'. rewrite Hy, Hcy.
    repeat split; assumption || reflexivity. }
  intros e c d1 d2.
  apply create_raises_on_empty_range. cbn. lia.
Qed.

End RandomWalk.

(** ** Spawn scheduler *)

Section Spawn.

Local Open Scope Z_scope.

Lemma edge_start_cases (cx cy : R) (k : Z) (P : R * R -> Prop) :
  0 <= k < 4 ->
  (k = 0 -> P (cx, cy + 60)%R) -> (k = 1 -> P (cx + 60, cy)%R) ->
  (k = 2 -> P (cx, cy - 60)%R) -> (k = 3 -> P (cx - 60, cy)%R) ->
  P (edge_start cx cy k).
Proof.
  intros Hk H0 H1 H2 H3.
  assert (Hcase : k = 0 \/ k = 1 \/ k = 2 \/ k = 3) by lia.
  destruct Hcase as [-> | [-> | [-> | ->]]]; cbn; auto.
Qed.

Lemma randomwalk_init_eq (g : Game) (size : Z) (color : string) (draw : Z) :
  RandomWalkEnemy.init g size color draw
  = Ok (mkRandomWalk unset_coordinate unset_coordinate size color
          (1 + draw mod 5) XRight YDown).
Proof. reflexivity. Qed.

Lemma randomwalk_create_eq (g : Game) (e : RandomWalkObj) (d1 d2 : Z) :
  1 <= screen_width g ->
  RandomWalkEnemy.create g e d1 d2
  = Ok (RandomWalkEnemy.set_pos e (d1 mod screen_width g)
          (d2 mod screen_width g)).
Proof.
  intros Hw. unfold RandomWalkEnemy.create.
  rewrite (proj1 (randint_from_0 d1 Hw)), (proj1 (randint_from_0 d2 Hw)).
  reflexivity.
Qed.

Lemma chasing_create_eq (g : Game) (e : ChasingObj) (d1 d2 : Z) :
  1 <= screen_width g ->
  ChasingEnemy.create g e d1 d2
  = Ok (ChasingEnemy.set_pos e (IZR (d1 mod screen_width g))
          (IZR (d2 mod screen_width g))).
Proof.
  intros Hw. unfold ChasingEnemy.create.
  rewrite (proj1 (randint_from_0 d1 Hw)), (proj1 (randint_from_0 d2 Hw)).
  reflexivity.
Qed.

Lemma blocker_create_start (g : Game) (e : BlockerObj) (draw : Z) :
  BlockerEnemy.create g e draw = Ok (blocker_start e (draw mod 4)).
Proof.
  unfold BlockerEnemy.create, random.randint. cbn [Z.leb Z.compare bind].
  change (3 - 0 + 1) with 4. rewrite Z.add_0_l.
  pose proof (Z.mod_pos_bound draw 4 eq_refl) as Hk.
  assert (Hcase : draw mod 4 = 0 \/ draw mod 4 = 1 \/ draw mod 4 = 2
                  \/ draw mod 4 = 3) by lia.
  destruct Hcase as [-> | [-> | [-> | ->]]]; reflexivity.
Qed.

Lemma fencing_start_fields (e : FencingObj) (k : Z) :
  fe_color (fencing_start e k) = fe_color e /\
  fe_size (fencing_start e k) = fe_size e /\
  fe_speed (fencing_start e k) = fe_speed e /\
  fe_off_from_home (fencing_start e k) = fe_off_from_home e.
Proof.
  unfold fencing_start.
  destruct (k =? 0); [| destruct (k =? 1); [| destruct (k =? 2)]];
    repeat split; reflexivity.
Qed.

Lemma blocker_start_fields (e : BlockerObj) (k : Z) :
  bl_color (blocker_start e k) = bl_color e /\
  bl_size (blocker_start e k) = bl_size e /\
  bl_speed (blocker_start e k) = bl_speed e /\
  bl_off_from_player (blocker_start e k) = bl_off_from_player e /\
  bl_player_x (blocker_start e k) = bl_player_x e /\
  bl_player_y (blocker_start e k) = bl_player_y e.
Proof.
  unfold blocker_start.
  destruct (k =? 0); [| destruct (k =? 1); [| destruct (k =? 2)]];
    repeat split; reflexivity.
Qed.

Lemma create_enemy_spec (g : Game) (d : Draws) :
  registered g -> 1 <= screen_width g ->
  exists e,
    EnemyGenerator.create_enemy g d = Ok (spawned g e) /\
    Ok (kind_of e) = py_index (enemies_factory g) (d_index d mod 4) /\
    Ok (enemy_color e) = py_index (enemies_color g) (d_index d mod 4) /\
    enemy_size e = 20 /\
    (enemy_x e, enemy_y e) = placement g (kind_of e) d.
Proof.
  intros [Hf Hc] Hw. unfold EnemyGenerator.create_enemy.
  rewrite Hf, Hc.
  change (Z.of_nat (List.length [KRandomWalk; KChasing; KFencing; KBlocker]))
    with 4.
  rewrite (proj1 (@randint_from_0 4 (d_index d) ltac:(lia))).
  pose proof (Z.mod_pos_bound (d_index d) 4 eq_refl) as Hk.
  pose proof (Z.mod_pos_bound (d_create1 d) 4 eq_refl) as Hk1.
  assert (Hcase : d_index d mod 4 = 0 \/ d_index d mod 4 = 1 \/
                  d_index d mod 4 = 2 \/ d_index d mod 4 = 3) by lia.
  cbn [bind].
  destruct Hcase as [-> | [-> | [-> | ->]]];
    match goal with
    | |- context [py_index ?l ?i] =>
        let v := eval cbv in (py_index l i) in change (py_index l i) with v
    end;
    match goal with
    | |- context [py_index ?l ?i] =>
        let v := eval cbv in (py_index l i) in change (py_index l i) with v
    end;
    cbn [bind construct]; rewrite ?randomwalk_init_eq; cbn [bind];
    unfold add_element, enemy_set_x, enemy_set_y, enemy_create;
    rewrite ?randomwalk_create_eq, ?chasing_create_eq, ?fencing_create_start,
      ?blocker_create_start by exact Hw;
    cbn [bind]; eexists; (split; [reflexivity |]);
    (split; [reflexivity |]);
    cbn [kind_of placement enemy_x enemy_y enemy_color enemy_size].
  - (* RandomWalkEnemy *)
    repeat split; reflexivity.
  - (* ChasingEnemy *)
    repeat split; reflexivity.
  - (* FencingEnemy *)
    rewrite (proj1 (fencing_start_fields _ _)),
      (proj1 (proj2 (fencing_start_fields _ _))).
    split; [reflexivity |]. split; [reflexivity |].
    unfold fencing_start.
    apply edge_start_cases; [exact Hk1 | | | |]; intros ->; cbn -[Z.add Z.sub];
      rewrite ?plus_IZR, ?minus_IZR; reflexivity.
  - (* BlockerEnemy *)
    rewrite (proj1 (blocker_start_fields _ _)),
      (proj1 (proj2 (blocker_start_fields _ _))).
    split; [reflexivity |]. split; [reflexivity |].
    unfold blocker_start.
    apply edge_start_cases; [exact Hk1 | | | |]; intros ->; reflexivity.
Qed.

End Spawn.

(** ** Session controller *)

Section Session.

Local Open Scope Z_scope.

Lemma check_hit_setup (g : Game) (x y : R) (size : Z) :
  setup (Enemy.check_hit g x y size) = setup g /\
  elements (Enemy.check_hit g x y size) = elements g /\
  (is_running g = false -> is_running (Enemy.check_hit g x y size) = false).
Proof.
  unfold Enemy.check_hit.
  destruct (Enemy.hits_player x y size (player g)); repeat split; auto.
Qed.

Lemma player_update_setup (g : Game) :
  setup (Player.update g) = setup g /\
  elements (Player.update g) = elements g /\
  (is_running g = false -> is_running (Player.update g) = false).
Proof.
  unfold Player.update. cbv zeta.
  destruct (Home.contains _ _ _); cbn;
    destruct (Waypoint.is_active _); try (repeat split; auto; fail);
    destruct (Rltb _ _); repeat split; auto.
Qed.

Lemma enemy_update_setup (g g' : Game) (e e' : EnemyObj) :
  enemy_update g e = Ok (e', g') ->
  setup g' = setup g /\ elements g' = elements g /\
  (is_running g = false -> is_running g' = false).
Proof.
  destruct e as [e | e | e | e | e]; cbn.
  - intros H. injection H as _ <-. apply check_hit_setup.
  - intros H. injection H as _ <-. apply check_hit_setup.
  - intros H. injection H as _ <-. apply check_hit_setup.
  - unfold FencingEnemy.update.
    destruct (FencingEnemy.call_move e); cbn; [| discriminate].
    intros H. injection H as _ <-. apply check_hit_setup.
  - unfold BlockerEnemy.update.
    destruct (BlockerEnemy.call_move e); cbn; [| discriminate].
    intros H. injection H as _ <-. apply check_hit_setup.
Qed.

Lemma update_element_setup (g g' : Game) (i : nat) :
  update_element g i = Ok g' ->
  setup g' = setup g /\ List.length (elements g') = List.length (elements g) /\
  (is_running g = false -> is_running g' = false).
Proof.
  unfold update_element.
  destruct (nth_error (elements g) i) as [[ | | | e] |].
  - intros H. injection H as <-. auto.
  - intros H. injection H as <-. auto.
  - intros H. injection H as <-.
    destruct (player_update_setup g) as (Hs & He & Hr).
    rewrite He. auto.
  - destruct (enemy_update g e) as [[e' g1] |] eqn:Hu; cbn; [| discriminate].
    intros H. injection H as <-.
    destruct (enemy_update_setup _ _ Hu) as (Hs & He & Hr).
    repeat split; cbn; auto.
    rewrite <- He. clear. generalize (elements g1) i (ElEnemy e').
    induction l as [| a l IH]; intros [| j] x; cbn; auto.
  - intros H. injection H as <-. auto.
Qed.

Lemma update_from_setup (n i : nat) (g g' : Game) :
  update_from n i g = Ok g' ->
  setup g' = setup g /\ (is_running g = false -> is_running g' = false).
Proof.
  revert i g. induction n as [| n IH]; intros i g; cbn.
  - intros H. injection H as <-. auto.
  - destruct (update_element g i) as [g1 |] eqn:Hu; cbn; [| discriminate].
    intros H. destruct (update_element_setup _ _ Hu) as (Hs & _ & Hr).
    destruct (IH _ _ H) as (Hs' & Hr'). split; [congruence | auto].
Qed.

Lemma tick_setup (g g' : Game) :
  tick g = Ok g' ->
  setup g' = setup g /\ (is_running g = false -> g' = g).
Proof.
  unfold tick. destruct (is_running g).
  - intros H. split; [now apply (update_from_setup _ _ _ H) | discriminate].
  - intros H. injection H as <-. auto.
Qed.


Lemma setworldcoordinates_spec (width height : Z) :
  (width <> 1 -> height <> 1 ->
   setworldcoordinates 0 (height - 1) (width - 1) 0 = Ok tt) /\
  (width = 1 \/ height = 1 ->
   setworldcoordinates 0 (height - 1) (width - 1) 0 = Raise ZeroDivisionError).
Proof.
  unfold setworldcoordinates. cbv zeta.
  destruct (Z.eqb_spec (width - 1 - 0) 0) as [Hw | Hw];
    destruct (Z.eqb_spec (0 - (height - 1)) 0) as [Hh | Hh];
    split; intros; try reflexivity; lia.
Qed.


Lemma fire_spec (width n : Z) (g : Game) (d : Draws) :
  1 <= width -> scheduled width n g ->
  exists e,
    fire g d = Ok (spawned (set_timers g (100 + 500 * n) []) e) /\
    scheduled width (n + 1) (spawned (set_timers g (100 + 500 * n) []) e) /\
    clock (spawned (set_timers g (100 + 500 * n) []) e) = 100 + 500 * n /\
    Ok (kind_of e) = py_index (enemies_factory g) (d_index d mod 4) /\
    Ok (enemy_color e) = py_index (enemies_color g) (d_index d mod 4) /\
    enemy_size e = 20 /\
    (enemy_x e, enemy_y e) = placement g (kind_of e) d.
Proof.
  intros Hw (Hreg & Hwd & Ht & Hc).
  unfold fire. rewrite Ht.
  rewrite Z.max_r by exact Hc.
  destruct (@create_enemy_spec (set_timers g (100 + 500 * n) []) d)
    as (e & Hce & Hk & Hcol & Hsz & Hpos).
  { exact Hreg. }
  { cbn. lia. }
  exists e. split; [exact Hce |].
  split.
  { unfold scheduled, spawned, after. cbn -[Z.add Z.mul].
    repeat split; try apply Hreg; try assumption; try lia.
    do 2 f_equal. lia. }
  split; [reflexivity |].
  repeat split; assumption.
Qed.


Lemma run_cons (ev : Event) (evs : list Event) (g : Game) :
  run (ev :: evs) g = bind (step g ev) (run evs).
Proof. reflexivity. Qed.



Lemma game0_eq :
  game0
  = mkGame 1 800 600 (mkWaypoint 0 0 false) (mkPlayer 50 300 0 5)
      (mkHome 700 300 20) [KRandomWalk; KChasing; KFencing; KBlocker]
      ["red"; "green"; "blue"; "yellow"]%string (Some (mkEnemyGenerator 1))
      [ElWaypoint; ElHome; ElPlayer] true [] 0 [(100, CbCreateEnemy)].
Proof. reflexivity. Qed.



Lemma create_enemy_running (g g' : Game) (d : Draws) :
  EnemyGenerator.create_enemy g d = Ok g' -> is_running g' = is_running g.
Proof.
  unfold EnemyGenerator.create_enemy.
  destruct (random.randint _ _ _) as [k |]; cbn [bind]; [| discriminate].
  destruct (py_index (enemies_factory g) k) as [f |]; cbn [bind];
    [| discriminate].
  destruct (py_index (enemies_color g) k) as [c |]; cbn [bind];
    [| discriminate].
  destruct (construct f g 20 c d) as [e |]; cbn [bind]; [| discriminate].
  unfold add_element.
  destruct (enemy_create g _ d) as [e' |]; cbn [bind]; [| discriminate].
  intros H. injection H as <-. reflexivity.
Qed.

Lemma fire_running (g g' : Game) (d : Draws) :
  fire g d = Ok g' -> is_running g' = is_running g.
Proof.
  unfold fire. destruct (timers g) as [| [due []] q].
  - intros H. now injection H as <-.
  - intros H. now rewrite (create_enemy_running _ _ H).
Qed.

Lemma run_stopped (evs : list Event) (g g' : Game) :
  is_running g = false -> run evs g = Ok g' -> is_running g' = false.
Proof.
  revert g. induction evs as [| ev evs IH]; intros g Hstop Hrun.
  - now injection Hrun as <-.
  - rewrite run_cons in Hrun.
    destruct (step g ev) as [g1 |] eqn:Hstep; [| discriminate].
    apply (IH g1); [| exact Hrun].
    destruct ev as [| ex ey | d]; unfold step in Hstep.
    + destruct (tick_setup _ Hstep) as (_ & Hsame).
      now rewrite (Hsame Hstop).
    + injection Hstep as <-. exact Hstop.
    + now rewrite (fire_running _ _ Hstep).
Qed.









(** With a width or a height of 1 [init_game] raises when it sets the
    world coordinates. *)
Lemma init_game_raises (width height lvl : Z) :
  width = 1 \/ height = 1 ->
  init_game (new_game width height lvl) = Raise ZeroDivisionError.
Proof.
  intros H. unfold init_game.
  change (screen_width (new_game width height lvl)) with width.
  change (screen_height (new_game width height lvl)) with height.
  now rewrite (proj2 (setworldcoordinates_spec width height) H).
Qed.




(** ** Stopping the session *)

(** C7 (as amended): the spawn callback does not consult the session's
    stopped flag.  In a stopped session with the registered factories it
    still returns, appends one new enemy to the entity collection and queues
    itself again 500 time units later, leaving the session stopped. *)
Theorem C7_firing_after_stop (g : Game) (d : Draws) :
  registered g -> 1 <= screen_width g -> is_running g = false ->
  exists e g',
    EnemyGenerator.create_enemy g d = Ok g' /\
    is_running g' = false /\
    elements g' = elements g ++ [ElEnemy e] /\
    timers g' = enqueue (clock g + 500) CbCreateEnemy (timers g).
Proof.
  intros Hreg Hw Hstop.
  destruct (create_enemy_spec d Hreg Hw) as (e & Hce & _).
  exists e, (spawned g e). split; [exact Hce |].
  split; [exact Hstop |]. split; reflexivity.
Qed.

(** The 800 x 600 session, stopped right after its initialisation. *)
Lemma C7_firing_after_stop_witness :
  exists e g',
    EnemyGenerator.create_enemy (stop game0) (mkDraws 2 0 0 0) = Ok g' /\
    is_running g' = false /\
    elements g' = elements (stop game0) ++ [ElEnemy e] /\
    timers g'
    = enqueue (clock (stop game0) + 500) CbCreateEnemy (timers (stop game0)).
Proof.
  apply (@C7_firing_after_stop (stop game0) (mkDraws 2 0 0 0)).
  - rewrite game0_eq. split; reflexivity.
  - rewrite game0_eq. simpl. lia.
  - reflexivity.
Defined.

(** The session is stopped while the first firing is queued; the firing
    then adds a fourth entity and queues the next firing for time 600. *)
Lemma C7_counterexample :
  let g := stop game0 in
  exists e g',
    is_running g = false /\
    timers g = [(100, CbCreateEnemy)] /\
    fire g (mkDraws 2 0 0 0) = Ok g' /\
    elements g = [ElWaypoint; ElHome; ElPlayer] /\
    elements g' = [ElWaypoint; ElHome; ElPlayer; ElEnemy e] /\
    timers g' = [(600, CbCreateEnemy)].
Proof.
  cbv zeta. rewrite game0_eq.
  match goal with |- context [stop ?r] => set (g := stop r) end.
  assert (Hs : scheduled 800 0 g).
  { unfold scheduled, registered. repeat split; try reflexivity.
    cbn. lia. }
  destruct (@fire_spec 800 0 g (mkDraws 2 0 0 0) ltac:(lia) Hs)
    as (e & Hf & Hs1 & _).
  exists e, (spawned (set_timers g (100 + 500 * 0) []) e).
  split; [reflexivity |]. split; [reflexivity |]. split; [exact Hf |].
  split; [reflexivity |]. split; [reflexivity |].
  destruct Hs1 as (_ & _ & Ht & _). exact Ht.
Qed.

(** C8 (as amended): both end-of-game signals stop the session and draw
    their overlay, whether or not the session was already stopped; a stopped
    session is never set running again, neither by an entity's update, nor
    by a tick, a click or a timer firing; and the tick of a stopped session
    processes no entity. *)
Theorem C8_stop_latched_signals_repeat :
  (forall g : Game,
      is_running (game_over_win g) = false /\
      canvas_texts (game_over_win g)
      = canvas_texts g ++ [mkText "You Win" "green"] /\
      is_running (game_over_lose g) = false /\
      canvas_texts (game_over_lose g)
      = canvas_texts g ++ [mkText "You Lose" "red"])
  /\
  (forall g : Game, is_running g = false -> tick g = Ok g)
  /\
  (forall (g g' : Game) (i : nat),
      is_running g = false -> update_element g i = Ok g' ->
      is_running g' = false)
  /\
  (forall (evs : list Event) (g g' : Game),
      is_running g = false -> run evs g = Ok g' -> is_running g' = false).
Proof.
  split; [intros g; repeat split; reflexivity |].
  split; [intros g Hstop; unfold tick; now rewrite Hstop |].
  split.
  - intros g g' i Hstop Hu. now apply (update_element_setup _ _ Hu).
  - exact run_stopped.
Qed.

(** The session has been won; a loss signal that follows is not ignored: it
    draws the second overlay. *)
Lemma C8_counterexample :
  let g1 := game_over_win game0 in
  let g2 := game_over_lose g1 in
  is_running game0 = true /\ is_running g1 = false /\
  canvas_texts g1 = [mkText "You Win" "green"] /\
  canvas_texts g2 = [mkText "You Win" "green"; mkText "You Lose" "red"] /\
  g2 <> g1.
Proof.
  cbv zeta. rewrite game0_eq. repeat split; try reflexivity.
  intros H. apply (f_equal canvas_texts) in H. discriminate H.
Qed.

Lemma player_update_at_home (g : Game) :
  Home.contains (home g) (pl_x (player g)) (pl_y (player g)) = true ->
  wp_active (waypoint g) = false ->
  Player.update g = game_over_win g.
Proof.
  intros Hin Hwp. unfold Player.update. rewrite Hin. cbv zeta.
  unfold Waypoint.is_active.
  change (waypoint (game_over_win g)) with (waypoint g).
  now rewrite Hwp.
Qed.

Lemma check_hit_true (g : Game) (x y : R) (size : Z) :
  Enemy.hits_player x y size (player g) = true ->
  Enemy.check_hit g x y size = game_over_lose g.
Proof. intros H. unfold Enemy.check_hit. now rewrite H. Qed.

(** One tick can raise both signals: the player's update signals the win,
    and the update of the blocker that follows it in the collection signals
    the loss, so that both overlays are on the canvas after the tick. *)
Lemma tick_draws_both_overlays :
  exists g',
    tick crowded_game = Ok g' /\
    is_running g' = false /\
    canvas_texts g'
    = [mkText "You Win" "green"; mkText "You Lose" "red"].
Proof.
  unfold tick, crowded_game. cbn [is_running elements List.length].
  cbn [update_from]. unfold update_element at 1. cbn [elements nth_error bind].
  unfold update_element at 1. cbn [elements nth_error bind].
  unfold update_element at 1. cbn [elements nth_error bind].
  rewrite player_update_at_home;
    [| apply contains_spec; cbn; lra | reflexivity].
  unfold update_element at 1.
  cbn [game_over_win stop create_text set_is_running set_canvas_texts
       elements nth_error bind canvas_texts app level screen_width
       screen_height waypoint player home enemies_factory enemies_color
       enemy_generator clock timers is_running].
  unfold enemy_update, BlockerEnemy.update, BlockerEnemy.call_move.
  cbn [bl_move bind]. unfold BlockerEnemy.left. cbv zeta.
  unfold BlockerEnemy.set_pos, BlockerEnemy.set_move.
  cbn [bl_x bl_y bl_size bl_color bl_speed bl_player_x bl_player_y
       bl_off_from_player bl_move].
  destruct (Rltb (707 - 7) (700 - 60)) eqn:Hb.
  { apply Rltb_true_iff in Hb. lra. }
  cbn [bl_x bl_y bl_size fst snd bind].
  rewrite check_hit_true; [| apply hits_player_spec; cbn; lra].
  eexists. split; [reflexivity |]. split; reflexivity.
Qed.

End Session.

(** * Further properties of the code *)

(** ** Player *)

Section PlayerMore.

Local Open Scope R_scope.

(** [Player.update] never activates the waypoint and never changes its
    target; with an inactive waypoint the turtle does not move. *)
Theorem player_update_keeps_target (g : Game) :
  wp_x (waypoint (Player.update g)) = wp_x (waypoint g) /\
  wp_y (waypoint (Player.update g)) = wp_y (waypoint g) /\
  (wp_active (waypoint (Player.update g)) = true ->
   wp_active (waypoint g) = true) /\
  (wp_active (waypoint g) = false -> player (Player.update g) = player g).
Proof.
  destruct (wp_active (waypoint g)) eqn:Hact.
  - destruct (update_active g Hact) as (_ & _ & Hx & Hy).
    repeat split; auto. discriminate.
  - destruct (update_inactive g Hact) as (Hp & Hw).
    rewrite Hw, Hact. repeat split; auto.
Qed.








(** [Player.update] signals the win exactly when the turtle is in the home
    before it moves: the session is then stopped and the overlay drawn;
    otherwise the running flag and the canvas are left as they are, even if
    the move of this update ends inside the home. *)
Theorem player_update_win (g : Game) :
  let inside := Home.contains (home g) (pl_x (player g)) (pl_y (player g)) in
  is_running (Player.update g) = (is_running g && negb inside)%bool /\
  canvas_texts (Player.update g)
  = (if inside then canvas_texts g ++ [mkText "You Win" "green"]
     else canvas_texts g) /\
  elements (Player.update g) = elements g /\
  home (Player.update g) = home g.
Proof.
  unfold Player.update. cbv zeta.
  destruct (Home.contains _ _ _); cbn;
    destruct (Waypoint.is_active _); try destruct (Rltb _ _); cbn;
    rewrite ?andb_false_r, ?andb_true_r; repeat split; reflexivity.
Qed.



End PlayerMore.

(** ** Enemies: the hit test of [update] *)

Section EnemyMore.

Local Open Scope R_scope.

Lemma randomwalk_move_fields (g : Game) (e : RandomWalkObj) :
  rw_size (RandomWalkEnemy.call_xmove g e) = rw_size e /\
  rw_color (RandomWalkEnemy.call_xmove g e) = rw_color e /\
  rw_size (RandomWalkEnemy.call_ymove g e) = rw_size e /\
  rw_color (RandomWalkEnemy.call_ymove g e) = rw_color e.
Proof.
  destruct e as [x y sz col sp xm ym].
  unfold RandomWalkEnemy.call_xmove, RandomWalkEnemy.call_ymove,
    RandomWalkEnemy.x_left, RandomWalkEnemy.x_right, RandomWalkEnemy.y_up,
    RandomWalkEnemy.y_down, RandomWalkEnemy.set_pos,
    RandomWalkEnemy.set_xmove, RandomWalkEnemy.set_ymove.
  cbn -[Z.add Z.sub Z.ltb Z.gtb Z.leb].
  destruct xm, ym;
    repeat match goal with
           | |- context [if ?c then _ else _] => destruct c
           end; repeat split; reflexivity.
Qed.

(** Whatever the class, an update that returns has tested the hit at the
    position the enemy has after its move, against the player's position of
    that moment: the session is the one before the update, with the loss
    signalled exactly on a hit; the enemy keeps its class, size and
    colour. *)
Theorem enemy_update_signals_hit (g g' : Game) (e e' : EnemyObj) :
  enemy_update g e = Ok (e', g') ->
  g' = (if Enemy.hits_player (enemy_x e') (enemy_y e') (enemy_size e')
             (player g)
        then game_over_lose g else g) /\
  kind_of e' = kind_of e /\ enemy_size e' = enemy_size e /\
  enemy_color e' = enemy_color e.
Proof.
  destruct e as [e | e | e | e | e]; cbn [enemy_update].
  - intros H. injection H as <- <-. repeat split; reflexivity.
  - intros H. injection H as <- <-.
    split; [reflexivity |]. split; [reflexivity |].
    unfold RandomWalkEnemy.update. cbn [fst enemy_size enemy_color].
    destruct (randomwalk_move_fields g (RandomWalkEnemy.call_xmove g e))
      as (_ & _ & Hs2 & Hc2).
    destruct (randomwalk_move_fields g e) as (Hs1 & Hc1 & _).
    split; congruence.
  - intros H. injection H as <- <-. repeat split; reflexivity.
  - unfold FencingEnemy.update, FencingEnemy.call_move.
    destruct e as [x y sz col sp hx hy off [[ | | | ] |]];
      cbn [fe_move bind]; try discriminate;
      intros H; injection H as <- <-; cbn [fst snd];
      (split; [reflexivity |]); (split; [reflexivity |]);
      unfold FencingEnemy.up, FencingEnemy.right, FencingEnemy.down,
        FencingEnemy.left; cbv zeta;
      match goal with
      | |- context [if ?c then _ else _] => destruct c
      end; split; reflexivity.
  - unfold BlockerEnemy.update, BlockerEnemy.call_move.
    destruct e as [x y sz col sp hx hy off [[ | | | ] |]];
      cbn [bl_move bind]; try discriminate;
      intros H; injection H as <- <-; cbn [fst snd];
      (split; [reflexivity |]); (split; [reflexivity |]);
      unfold BlockerEnemy.up, BlockerEnemy.right, BlockerEnemy.down,
        BlockerEnemy.left; cbv zeta;
      match goal with
      | |- context [if ?c then _ else _] => destruct c
      end; split; reflexivity.
Qed.

(** A demo enemy that moves onto the turtle of [game0]. *)
Lemma enemy_update_signals_hit_witness :
  let e := EDemo (mkDemo 49 298 20 "red") in
  let r := DemoEnemy.update game0 (mkDemo 49 298 20 "red") in
  snd r = (if Enemy.hits_player (enemy_x (EDemo (fst r)))
                (enemy_y (EDemo (fst r))) (enemy_size (EDemo (fst r)))
                (player game0)
           then game_over_lose game0 else game0) /\
  kind_of (EDemo (fst r)) = kind_of e /\
  enemy_size (EDemo (fst r)) = enemy_size e /\
  enemy_color (EDemo (fst r)) = enemy_color e.
Proof.
  apply (@enemy_update_signals_hit game0
           (snd (DemoEnemy.update game0 (mkDemo 49 298 20 "red")))
           (EDemo (mkDemo 49 298 20 "red"))
           (EDemo (fst (DemoEnemy.update game0 (mkDemo 49 298 20 "red"))))).
  reflexivity.
Defined.

End EnemyMore.

(** ** Chasing enemy: pursuit *)

Section ChasingMore.

Local Open Scope R_scope.

Lemma chasing_velocity_spec (g : Game) (e : ChasingObj) :
  let e' := fst (ChasingEnemy.update g e) in
  ch_x e' = ch_x e + ch_speedx e' /\
  ch_y e' = ch_y e + ch_speedy e' /\
  math.hypot (ch_speedx e') (ch_speedy e') = Rabs (IZR (ch_speed e)) /\
  ((pl_x (player g), pl_y (player g)) = (ch_x e, ch_y e) ->
   ch_speedx e' = IZR (ch_speed e) /\ ch_speedy e' = 0).
Proof.
  unfold ChasingEnemy.update. cbn.
  set (a := math.atan2 _ _). set (s := IZR (ch_speed e)).
  split; [reflexivity |]. split; [reflexivity |]. split.
  - apply hypot_unique; [apply Rabs_pos |].
    pose proof (sin2_cos2 a) as H. unfold Rsqr in H.
    replace (Rabs s * Rabs s) with (s * s)
      by (unfold Rabs; destruct (Rcase_abs s); ring).
    replace (s * cos a * (s * cos a) + s * sin a * (s * sin a))
      with (s * s * (sin a * sin a + cos a * cos a)) by ring.
    rewrite H. ring.
  - intros Heq. injection Heq as Hx Hy. subst a.
    rewrite Hx, Hy, !Rminus_diag, atan2_0_0, cos_0, sin_0.
    split; ring.
Qed.

(** Every update displaces the chaser by the stored velocity, whose length
    is exactly the speed, whatever the configuration; a chaser that stands
    on the player moves along the positive x axis. *)
Theorem chasing_update_velocity (g : Game) (e : ChasingObj) :
  let e' := fst (ChasingEnemy.update g e) in
  ch_x e' = ch_x e + ch_speedx e' /\
  ch_y e' = ch_y e + ch_speedy e' /\
  math.hypot (ch_speedx e') (ch_speedy e') = Rabs (IZR (ch_speed e)) /\
  ((pl_x (player g), pl_y (player g)) = (ch_x e, ch_y e) ->
   ch_speedx e' = IZR (ch_speed e) /\ ch_speedy e' = 0).
Proof. exact (chasing_velocity_spec g e). Qed.

Lemma hypot_ge_abs (dx dy : R) :
  Rabs dx <= math.hypot dx dy /\ Rabs dy <= math.hypot dx dy.
Proof.
  pose proof (hypot_nonneg dx dy) as Hn.
  pose proof (hypot_sqr dx dy) as Hs.
  split; apply Rnot_lt_le; intros Hlt;
    unfold Rabs in Hlt;
    [destruct (Rcase_abs dx) | destruct (Rcase_abs dy)]; nra.
Qed.

(** A chaser nearer to the player than half its size hits the player. *)
Lemma chaser_near_hits (g : Game) (e : ChasingObj) :
  chaser_distance g e < IZR (ch_size e) / 2 ->
  Enemy.hits_player (ch_x e) (ch_y e) (ch_size e) (player g) = true.
Proof.
  unfold chaser_distance. intros Hd.
  destruct (hypot_ge_abs (pl_x (player g) - ch_x e) (pl_y (player g) - ch_y e))
    as (Hx & Hy).
  apply hits_player_spec.
  unfold Rabs in Hx, Hy.
  destruct (Rcase_abs (pl_x (player g) - ch_x e));
    destruct (Rcase_abs (pl_y (player g) - ch_y e)); lra.
Qed.

Lemma chasing_step_bound (g : Game) (e : ChasingObj) :
  ch_speed e = 3%Z ->
  chaser_distance g (fst (ChasingEnemy.update g e))
  <= Rmax (chaser_distance g e - 3) 3.
Proof.
  intros Hs.
  destruct (Req_dec (pl_x (player g)) (ch_x e)) as [Hx | Hx];
    [destruct (Req_dec (pl_y (player g)) (ch_y e)) as [Hy | Hy] |].
  - (* the chaser stands on the player *)
    destruct (chasing_velocity_spec g e) as (Hx' & Hy' & _ & Hdeg).
    destruct Hdeg as (Hvx & Hvy); [now f_equal |].
    unfold chaser_distance. rewrite Hx', Hy', Hvx, Hvy, Hs, Hx, Hy.
    replace (math.hypot (ch_x e - (ch_x e + 3)) (ch_y e - (ch_y e + 0)))
      with 3 by (symmetry; apply hypot_unique; lra).
    apply Rmax_r.
  - rewrite chasing_step_distance, Hs by congruence.
    pose proof (hypot_nonneg (pl_x (player g) - ch_x e)
                  (pl_y (player g) - ch_y e)) as Hn.
    fold (chaser_distance g e) in Hn.
    unfold Rabs, Rmax.
    destruct (Rcase_abs (chaser_distance g e - 3));
      destruct (Rle_dec (chaser_distance g e - 3) 3); lra.
  - rewrite chasing_step_distance, Hs by congruence.
    pose proof (hypot_nonneg (pl_x (player g) - ch_x e)
                  (pl_y (player g) - ch_y e)) as Hn.
    fold (chaser_distance g e) in Hn.
    unfold Rabs, Rmax.
    destruct (Rcase_abs (chaser_distance g e - 3));
      destruct (Rle_dec (chaser_distance g e - 3) 3); lra.
Qed.

Lemma chasing_updates_lost (n : nat) (g : Game) (e : ChasingObj) :
  is_running g = false /\ In (mkText "You Lose" "red") (canvas_texts g) ->
  is_running (snd (chasing_updates n g e)) = false /\
  In (mkText "You Lose" "red") (canvas_texts (snd (chasing_updates n g e))).
Proof.
  revert g e. induction n as [| n IH]; intros g e Hlost; [exact Hlost |].
  cbn [chasing_updates]. apply IH.
  unfold ChasingEnemy.update. cbn [snd]. unfold Enemy.check_hit.
  destruct (Enemy.hits_player _ _ _ _); [| exact Hlost].
  split; [reflexivity |]. cbn. apply in_or_app. left. apply Hlost.
Qed.

Lemma chasing_updates_fields (n : nat) (g : Game) (e : ChasingObj) :
  player (snd (chasing_updates n g e)) = player g /\
  ch_speed (fst (chasing_updates n g e)) = ch_speed e /\
  ch_size (fst (chasing_updates n g e)) = ch_size e.
Proof.
  revert g e. induction n as [| n IH]; intros g e; [auto |].
  cbn [chasing_updates].
  destruct (IH (snd (ChasingEnemy.update g e)) (fst (ChasingEnemy.update g e)))
    as (Hp & Hs & Hz).
  rewrite Hp, Hs, Hz, chasing_update_player. auto.
Qed.

(** A chaser of speed 3 and size at least 7 catches a player who stands
    still: from a distance below [3 n + size / 2] the loss is signalled
    within [n] updates: after them the session is stopped and shows the
    losing overlay. *)
Theorem chaser_catches_still_player (n : nat) (g : Game) (e : ChasingObj) :
  ch_speed e = 3%Z -> (7 <= ch_size e)%Z ->
  chaser_distance g e < 3 * INR n + IZR (ch_size e) / 2 ->
  (1 <= n)%nat ->
  (is_running (snd (chasing_updates n g e)) = false /\
   In (mkText "You Lose" "red") (canvas_texts (snd (chasing_updates n g e)))) /\
  player (snd (chasing_updates n g e)) = player g.
Proof.
  intros Hs Hz Hd Hn. split; [| apply chasing_updates_fields].
  revert g e Hs Hz Hd. induction n as [| n IH]; intros g e Hs Hz Hd; [lia |].
  cbn [chasing_updates].
  set (e1 := fst (ChasingEnemy.update g e)).
  set (g1 := snd (ChasingEnemy.update g e)).
  assert (Hhalf : 3 < IZR (ch_size e) / 2).
  { apply IZR_le in Hz. lra. }
  pose proof (chasing_step_bound g e Hs) as Hb. fold e1 in Hb.
  assert (Hsz1 : ch_size e1 = ch_size e) by reflexivity.
  destruct (Rlt_dec (chaser_distance g e1) (IZR (ch_size e) / 2)) as [Hnear | Hfar].
  - (* hit at this update *)
    apply chasing_updates_lost.
    unfold g1, ChasingEnemy.update. cbn [snd].
    rewrite check_hit_true;
      [| rewrite <- Hsz1 in Hnear; exact (chaser_near_hits g e1 Hnear)].
    split; [reflexivity |]. cbn. apply in_or_app. right. now left.
  - assert (Hle : chaser_distance g e1 <= chaser_distance g e - 3).
    { unfold Rmax in Hb.
      destruct (Rle_dec (chaser_distance g e - 3) 3); lra. }
    rewrite S_INR in Hd.
    destruct n as [| n]; [cbn in Hd; lra |].
    apply IH; [lia | exact Hs | exact Hz |].
    assert (Hp1 : player g1 = player g) by apply chasing_update_player.
    unfold chaser_distance. rewrite Hp1.
    fold (chaser_distance g e1). rewrite Hsz1. lra.
Qed.

(** The first chaser of the scenario of the specification: spawned at
    (100, 100) with the player at (100, 160), it is within reach after 17
    updates. *)
Lemma chaser_catches_still_player_witness :
  let g := set_player game0 (mkPlayer 100 160 0 5) in
  let e := mkChasing 100 100 20 "green" 3 0 0 in
  (is_running (snd (chasing_updates 17 g e)) = false /\
   In (mkText "You Lose" "red")
     (canvas_texts (snd (chasing_updates 17 g e)))) /\
  player (snd (chasing_updates 17 g e)) = player g.
Proof.
  assert (Hd : chaser_distance (set_player game0 (mkPlayer 100 160 0 5))
                 (mkChasing 100 100 20 "green" 3 0 0) = 60).
  { unfold chaser_distance. cbn. apply hypot_unique; lra. }
  apply (@chaser_catches_still_player 17
           (set_player game0 (mkPlayer 100 160 0 5))
           (mkChasing 100 100 20 "green" 3 0 0)).
  - reflexivity.
  - cbn. lia.
  - rewrite Hd. cbn. lra.
  - lia.
Defined.

End ChasingMore.

(** ** Blocker enemy: confinement *)

Section BlockerMore.

Local Open Scope R_scope.

Lemma blocker_updates_run (gs : list Game) (e : BlockerObj) :
  blocker_updates gs e = blocker_run (List.length gs) e.
Proof.
  revert e. induction gs as [| g gs IH]; intros e; [reflexivity |].
  cbn [blocker_updates blocker_run List.length].
  rewrite <- (blocker_update_call_move g e).
  destruct (BlockerEnemy.update g e) as [[e' g'] | x]; cbn;
    [apply IH | reflexivity].
Qed.

Lemma blocker_step_inv (c : R) (e : BlockerObj) :
  blocker_inv c e ->
  exists e', BlockerEnemy.call_move e = Ok e' /\ blocker_inv c e' /\
             bl_player_x e' = bl_player_x e /\
             bl_player_y e' = bl_player_y e /\
             (forall l, bl_move e = Some l ->
                        exists l', bl_move e' = Some l' /\
                                   horizontal l' = horizontal l).
Proof.
  intros (Hsp & Hoff & Hleg).
  destruct (bl_move e) as [l |] eqn:Hl; [| contradiction].
  destruct (blocker_call_move_spec e Hl)
    as (e' & Hcall & Hpx & Hpy & Hsp' & Hoff' & Hx & Hy & Hmv).
  exists e'. split; [exact Hcall |].
  assert (Hb : blocker_beyond e' l = true \/ blocker_beyond e' l = false)
    by (destruct (blocker_beyond e' l); auto).
  split; [| split; [exact Hpx | split; [exact Hpy |]]].
  - unfold blocker_inv. rewrite Hsp', Hoff', Hmv, Hpx, Hpy, Hx, Hy, Hsp.
    split; [reflexivity |]. split; [exact Hoff |].
    cbv zeta in Hleg |- *.
    destruct Hb as [Hb | Hb]; rewrite Hb;
      unfold blocker_beyond in Hb; rewrite Hpx, Hpy, Hoff', Hoff, Hx, Hy, Hsp in Hb;
      destruct l; cbn [blocker_switch];
      first [ apply Rltb_true_iff in Hb | apply Rgtb_true_iff in Hb
            | apply Rltb_false_iff in Hb
            | (unfold Rgtb in Hb; apply Rltb_false_iff in Hb) ];
      lra.
  - intros l0 Hl0. injection Hl0 as <-. rewrite Hmv.
    eexists. split; [reflexivity |].
    destruct (blocker_beyond e' l), l; reflexivity.
Qed.

Lemma blocker_run_inv (c : R) (n : nat) (e : BlockerObj) (l : Leg) :
  blocker_inv c e -> bl_move e = Some l ->
  exists e' l', blocker_run n e = Ok e' /\ blocker_inv c e' /\
                bl_player_x e' = bl_player_x e /\
                bl_player_y e' = bl_player_y e /\
                bl_move e' = Some l' /\ horizontal l' = horizontal l.
Proof.
  revert e l. induction n as [| n IH]; intros e l Hinv Hl.
  - exists e, l. split; [reflexivity |]. split; [exact Hinv |]. auto.
  - destruct (blocker_step_inv Hinv) as (e1 & Hstep & Hinv1 & Hx1 & Hy1 & Hleg).
    destruct (Hleg l Hl) as (l1 & Hl1 & Hh1).
    destruct (IH e1 l1 Hinv1 Hl1) as (e' & l' & Hrun & Hinv' & Hx & Hy & Hl' & Hh).
    exists e', l'. cbn [blocker_run]. rewrite Hstep. cbn [bind].
    split; [exact Hrun |]. split; [exact Hinv' |].
    split; [congruence |]. split; [congruence |].
    split; [exact Hl' | congruence].
Qed.

Lemma blocker_start_inv (g : Game) (size : Z) (color : string) (k : Z) :
  let e0 := blocker_start (BlockerEnemy.init g size color) k in
  blocker_inv (blocker_fixed e0) e0 /\
  bl_player_x e0 = pl_x (player g) /\ bl_player_y e0 = pl_y (player g) /\
  exists l0, bl_move e0 = Some l0.
Proof.
  unfold blocker_start, blocker_inv, blocker_fixed.
  destruct (k =? 0)%Z; [| destruct (k =? 1)%Z; [| destruct (k =? 2)%Z]];
    cbn; (split; [| split; [reflexivity | split; [reflexivity | eauto]]]);
    repeat split; try reflexivity; lra.
Qed.

(** A blocker never leaves the edge it starts on: created at any of its four
    starts around the captured player position [(px, py)], it runs every
    sequence of [update()] calls without error, keeps the coordinate its
    first leg leaves alone, keeps moving along the same axis, and stays
    within 67 = [off_from_player + speed] of [px] and of [py]. *)
Theorem blocker_stays_on_its_edge (g : Game) (size : Z) (color : string)
  (draw : Z) (gs : list Game) :
  exists e0 l0 e l,
    BlockerEnemy.create g (BlockerEnemy.init g size color) draw = Ok e0 /\
    bl_move e0 = Some l0 /\
    blocker_updates gs e0 = Ok e /\
    bl_move e = Some l /\ horizontal l = horizontal l0 /\
    blocker_fixed e = blocker_fixed e0 /\
    (bl_player_x e, bl_player_y e) = (pl_x (player g), pl_y (player g)) /\
    -67 <= bl_x e - pl_x (player g) <= 67 /\
    -67 <= bl_y e - pl_y (player g) <= 67.
Proof.
  set (e0 := blocker_start (BlockerEnemy.init g size color) (draw mod 4)).
  destruct (blocker_start_inv g size color (draw mod 4))
    as (Hinv0 & Hpx0 & Hpy0 & l0 & Hl0).
  fold e0 in Hinv0, Hpx0, Hpy0, Hl0.
  destruct (blocker_run_inv (List.length gs) Hinv0 Hl0)
    as (e & l & Hrun & Hinv & Hx & Hy & Hl & Hh).
  exists e0, l0, e, l.
  split; [apply blocker_create_start |]. split; [exact Hl0 |].
  split; [rewrite blocker_updates_run; exact Hrun |].
  split; [exact Hl |]. split; [exact Hh |].
  destruct Hinv as (_ & _ & Hleg). rewrite Hl in Hleg. cbv zeta in Hleg.
  assert (Hfix : blocker_fixed e = blocker_fixed e0).
  { unfold blocker_fixed. rewrite Hl, Hl0.
    destruct l, l0; try discriminate Hh;
      destruct Hleg as (-> & _); unfold blocker_fixed; rewrite Hl0;
      reflexivity. }
  split; [exact Hfix |].
  split; [rewrite Hx, Hy, Hpx0, Hpy0; reflexivity |].
  rewrite Hx, Hy, Hpx0, Hpy0 in Hleg.
  destruct l; lra.
Qed.

End BlockerMore.

(** ** Random walk enemy: confinement *)

Section RandomWalkMore.

Local Open Scope Z_scope.

Lemma randomwalk_step_inv (g : Game) (e : RandomWalkObj) :
  0 <= screen_width g -> 0 <= screen_height g ->
  randomwalk_inv (screen_width g) (screen_height g) e ->
  randomwalk_inv (screen_width g) (screen_height g)
    (fst (RandomWalkEnemy.update g e)).
Proof.
  intros Hw Hh (Hs & Hx & Hy).
  destruct (randomwalk_update_spec g e) as (Hs' & Hx' & Hy' & Hxm & Hym).
  set (e' := fst (RandomWalkEnemy.update g e)) in *.
  unfold randomwalk_inv. cbv zeta in *. rewrite Hs'.
  split; [exact Hs |]. split.
  - rewrite Hxm. destruct (rw_xmove e).
    + destruct (Z.ltb_spec (rw_x e') 0); lia.
    + rewrite Z.gtb_ltb.
      destruct (Z.ltb_spec (screen_width g) (rw_x e')); lia.
  - rewrite Hym. destruct (rw_ymove e).
    + destruct (Z.leb_spec (rw_y e') 0); lia.
    + rewrite Z.gtb_ltb.
      destruct (Z.ltb_spec (screen_height g) (rw_y e')); lia.
Qed.

Lemma randomwalk_updates_inv (n : nat) (g : Game) (e : RandomWalkObj) :
  0 <= screen_width g -> 0 <= screen_height g ->
  randomwalk_inv (screen_width g) (screen_height g) e ->
  randomwalk_inv (screen_width g) (screen_height g)
    (fst (randomwalk_updates n g e)) /\
  rw_speed (fst (randomwalk_updates n g e)) = rw_speed e.
Proof.
  revert g e. induction n as [| n IH]; intros g e Hw Hh Hinv; [auto |].
  cbn [randomwalk_updates].
  set (r := RandomWalkEnemy.update g e).
  assert (Hsetup : setup (snd r) = setup g)
    by (unfold r, RandomWalkEnemy.update; cbn [snd]; apply check_hit_setup).
  assert (Hdims : screen_width (snd r) = screen_width g /\
                  screen_height (snd r) = screen_height g).
  { unfold setup in Hsetup. injection Hsetup as _ Hw' Hh' _ _ _ _ _ _. auto. }
  destruct Hdims as (Hw' & Hh').
  destruct (IH (snd r) (fst r)) as (Hinv' & Hsp).
  - now rewrite Hw'.
  - now rewrite Hh'.
  - rewrite Hw', Hh'. now apply randomwalk_step_inv.
  - rewrite Hw', Hh' in Hinv'. split; [exact Hinv' |].
    rewrite Hsp. apply (randomwalk_update_spec g e).
Qed.

(** A random walk enemy never escapes: constructed and created in an arena
    of positive width [w] and non-negative height [h], after any number of
    updates it is at most one step (its speed, between 1 and 5) outside the
    horizontal range [0, w], and at most one step outside the vertical range
    from 0 to the larger of [h] and [w - 1]. *)
Theorem randomwalk_confined (g : Game) (size : Z) (color : string)
  (di d1 d2 : Z) (n : nat) :
  1 <= screen_width g -> 0 <= screen_height g ->
  exists e0,
    (e1 <- RandomWalkEnemy.init g size color di ;;
     RandomWalkEnemy.create g e1 d1 d2) = Ok e0 /\
    let e := fst (randomwalk_updates n g e0) in
    let s := rw_speed e0 in
    rw_speed e = s /\ 1 <= s <= 5 /\
    - s <= rw_x e <= screen_width g + s /\
    - s <= rw_y e <= Z.max (screen_height g) (screen_width g - 1) + s.
Proof.
  intros Hw Hh.
  rewrite randomwalk_init_eq. cbn [bind].
  rewrite randomwalk_create_eq by exact Hw.
  eexists. split; [reflexivity |].
  set (e0 := RandomWalkEnemy.set_pos _ _ _).
  pose proof (Z.mod_pos_bound di 5 eq_refl) as Hdi.
  pose proof (Z.mod_pos_bound d1 (screen_width g) ltac:(lia)) as Hd1.
  pose proof (Z.mod_pos_bound d2 (screen_width g) ltac:(lia)) as Hd2.
  assert (Hinv0 : randomwalk_inv (screen_width g) (screen_height g) e0).
  { unfold randomwalk_inv, e0. cbn -[Z.add Z.sub Z.max Z.modulo]. lia. }
  destruct (@randomwalk_updates_inv n g e0 ltac:(lia) Hh Hinv0)
    as ((Hs & Hx & Hy) & Hsp).
  cbv zeta in *. rewrite Hsp in *.
  split; [reflexivity |]. split; [exact Hs |].
  destruct (rw_xmove _), (rw_ymove _); lia.
Qed.

(** The 800 x 600 arena. *)
Lemma randomwalk_confined_witness :
  exists e0,
    (e1 <- RandomWalkEnemy.init game0 20 "red" 2 ;;
     RandomWalkEnemy.create game0 e1 10 799) = Ok e0 /\
    let e := fst (randomwalk_updates 1000 game0 e0) in
    let s := rw_speed e0 in
    rw_speed e = s /\ 1 <= s <= 5 /\
    - s <= rw_x e <= screen_width game0 + s /\
    - s <= rw_y e <= Z.max (screen_height game0) (screen_width game0 - 1) + s.
Proof.
  apply (@randomwalk_confined game0 20 "red" 2 10 799 1000).
  - rewrite game0_eq. cbn. lia.
  - rewrite game0_eq. cbn. lia.
Defined.

(** ** Demo enemy *)

(** The demo enemy drifts without bound: after [n] updates it has moved by
    [(n, 2 n)], whatever the arena and the player. *)
Theorem demo_drifts (n : nat) (g : Game) (e : DemoObj) :
  fst (demo_updates n g e)
  = mkDemo (de_x e + Z.of_nat n) (de_y e + 2 * Z.of_nat n) (de_size e)
      (de_color e).
Proof.
  revert g e. induction n as [| n IH]; intros g e.
  - destruct e. cbn -[Z.add Z.mul]. f_equal; lia.
  - cbn [demo_updates]. rewrite IH.
    unfold DemoEnemy.update. cbn -[Z.add Z.mul Z.of_nat]. f_equal; lia.
Qed.

End RandomWalkMore.

(** ** Fencing enemy: the lap *)

Section FencingMore.

Local Open Scope Z_scope.

Lemma fencing_lap_at_origin (size : Z) (color : string) (k : Z) :
  0 <= k <= 3 ->
  fencing_run (31 + 248) (fencing_start (fencing_at_origin size color) k)
  = fencing_run 31 (fencing_start (fencing_at_origin size color) k).
Proof.
  intros Hk.
  assert (Hcase : k = 0 \/ k = 1 \/ k = 2 \/ k = 3) by lia.
  destruct Hcase as [-> | [-> | [-> | ->]]]; vm_compute; reflexivity.
Qed.

(** From its first turn on, 31 updates after its creation, a fencing enemy
    repeats the same lap of 248 updates around the home, whatever the home
    position and the start: the state after [n + 248] updates is the state
    after [n] updates. *)
Theorem fencing_patrol_periodic (g : Game) (size : Z) (color : string)
  (draw : Z) (gs1 gs2 : list Game) :
  (31 <= List.length gs1)%nat ->
  List.length gs2 = (List.length gs1 + 248)%nat ->
  exists e0 e,
    FencingEnemy.create g (FencingEnemy.init g size color) draw = Ok e0 /\
    fencing_updates gs1 e0 = Ok e /\
    fencing_updates gs2 e0 = Ok e.
Proof.
  intros Hn Hlen.
  pose proof (Z.mod_pos_bound draw 4 eq_refl) as Hk.
  set (k := draw mod 4) in *.
  set (e0 := fencing_start (FencingEnemy.init g size color) k).
  assert (Hlap : fencing_run (31 + 248) e0 = fencing_run 31 e0).
  { unfold e0. rewrite fencing_start_shift, !fencing_run_shift.
    rewrite (@fencing_lap_at_origin size color k) by lia. reflexivity. }
  destruct (@fencing_run_inv (List.length gs1) e0
              (fencing_start_inv g size color k))
    as (e & Hrun & _).
  exists e0, e. split; [apply fencing_create_start |].
  rewrite !fencing_updates_run, Hlen. split; [exact Hrun |].
  replace (List.length gs1 + 248)%nat
    with ((31 + 248) + (List.length gs1 - 31))%nat by lia.
  rewrite fencing_run_add, Hlap, <- fencing_run_add.
  replace (31 + (List.length gs1 - 31))%nat with (List.length gs1) by lia.
  exact Hrun.
Qed.

(** Forty ticks and the same forty ticks followed by one lap. *)
Lemma fencing_patrol_periodic_witness :
  exists e0 e,
    FencingEnemy.create game0 (FencingEnemy.init game0 20 "blue") 1 = Ok e0 /\
    fencing_updates (repeat game0 40) e0 = Ok e /\
    fencing_updates (repeat game0 288) e0 = Ok e.
Proof.
  apply (@fencing_patrol_periodic game0 20 "blue" 1 (repeat game0 40)
           (repeat game0 288)).
  - rewrite repeat_length. lia.
  - rewrite !repeat_length. reflexivity.
Defined.

(** ** Patrol enemies: [update] before [create] *)

(** The constructors of the two patrol classes leave [move] unset, and an
    update raises [TypeError] exactly in that state; the creation hook
    always returns and sets [move], so that a created enemy's update
    returns. *)
Theorem patrol_update_needs_create :
  (forall (g : Game) (size : Z) (color : string),
      fe_move (FencingEnemy.init g size color) = None /\
      bl_move (BlockerEnemy.init g size color) = None)
  /\
  (forall (g : Game) (f : FencingObj) (b : BlockerObj),
      (FencingEnemy.update g f = Raise TypeError <-> fe_move f = None) /\
      (BlockerEnemy.update g b = Raise TypeError <-> bl_move b = None) /\
      (is_ok (FencingEnemy.update g f) = false <-> fe_move f = None) /\
      (is_ok (BlockerEnemy.update g b) = false <-> bl_move b = None))
  /\
  (forall (g g' : Game) (f : FencingObj) (b : BlockerObj) (draw : Z),
      exists f' b',
        FencingEnemy.create g f draw = Ok f' /\
        BlockerEnemy.create g b draw = Ok b' /\
        is_ok (FencingEnemy.update g' f') = true /\
        is_ok (BlockerEnemy.update g' b') = true).
Proof.
  split; [intros; split; reflexivity |]. split.
  - intros g f b.
    unfold FencingEnemy.update, BlockerEnemy.update, FencingEnemy.call_move,
      BlockerEnemy.call_move.
    destruct (fe_move f) as [[ | | | ] |], (bl_move b) as [[ | | | ] |];
      cbn; repeat split; intros; congruence.
  - intros g g' f b draw.
    rewrite fencing_create_start, blocker_create_start.
    eexists _, _. split; [reflexivity |]. split; [reflexivity |].
    unfold FencingEnemy.update, BlockerEnemy.update, FencingEnemy.call_move,
      BlockerEnemy.call_move, fencing_start, blocker_start.
    destruct (draw mod 4 =? 0);
      [| destruct (draw mod 4 =? 1); [| destruct (draw mod 4 =? 2)]];
      split; reflexivity.
Qed.

End FencingMore.

(** ** Degenerate boxes *)

Section Boxes.

Local Open Scope R_scope.

(** An enemy of size 0 or less hits nothing; a home of negative size
    contains nothing; a home of size 0 contains exactly its own position. *)
Theorem degenerate_boxes :
  (forall (x y : R) (size : Z) (p : PlayerObj),
      (size <= 0)%Z -> Enemy.hits_player x y size p = false)
  /\
  (forall (h : HomeObj) (x y : R),
      (home_size h < 0)%Z -> Home.contains h x y = false)
  /\
  (forall (h : HomeObj) (x y : R),
      home_size h = 0%Z ->
      (Home.contains h x y = true <->
       x = IZR (home_x h) /\ y = IZR (home_y h))).
Proof.
  split; [| split].
  - intros x y size p Hs. apply IZR_le in Hs.
    apply not_true_is_false. rewrite hits_player_spec. lra.
  - intros h x y Hs. apply IZR_lt in Hs.
    apply not_true_is_false. rewrite contains_spec. lra.
  - intros h x y Hs. rewrite contains_spec, Hs. lra.
Qed.

End Boxes.

(** ** Sessions: no exception, one more entity per firing *)

Section SessionMore.

Local Open Scope Z_scope.













End SessionMore.

(** ** Random walk enemy: the two axes *)

Section Axes.

Local Open Scope Z_scope.

Lemma call_xmove_eq (g : Game) (e : RandomWalkObj) :
  RandomWalkEnemy.call_xmove g e
  = let x' := match rw_xmove e with
              | XLeft => rw_x e - rw_speed e
              | XRight => rw_x e + rw_speed e
              end in
    mkRandomWalk x' (rw_y e) (rw_size e) (rw_color e) (rw_speed e)
      (match rw_xmove e with
       | XLeft => if x' <? 0 then XRight else XLeft
       | XRight => if x' >? screen_width g then XLeft else XRight
       end)
      (rw_ymove e).
Proof.
  destruct e as [x y sz col sp xm ym].
  unfold RandomWalkEnemy.call_xmove, RandomWalkEnemy.x_left,
    RandomWalkEnemy.x_right, RandomWalkEnemy.set_pos,
    RandomWalkEnemy.set_xmove.
  destruct xm; cbn -[Z.add Z.sub Z.ltb Z.gtb].
  - destruct (x - sp <? 0); reflexivity.
  - destruct (x + sp >? screen_width g); reflexivity.
Qed.

Lemma call_ymove_eq (g : Game) (e : RandomWalkObj) :
  RandomWalkEnemy.call_ymove g e
  = let y' := match rw_ymove e with
              | YUp => rw_y e - rw_speed e
              | YDown => rw_y e + rw_speed e
              end in
    mkRandomWalk (rw_x e) y' (rw_size e) (rw_color e) (rw_speed e)
      (rw_xmove e)
      (match rw_ymove e with
       | YUp => if y' <=? 0 then YDown else YUp
       | YDown => if y' >? screen_height g then YUp else YDown
       end).
Proof.
  destruct e as [x y sz col sp xm ym].
  unfold RandomWalkEnemy.call_ymove, RandomWalkEnemy.y_up,
    RandomWalkEnemy.y_down, RandomWalkEnemy.set_pos,
    RandomWalkEnemy.set_ymove.
  destruct ym; cbn -[Z.add Z.sub Z.leb Z.gtb].
  - destruct (y - sp <=? 0); reflexivity.
  - destruct (y + sp >? screen_height g); reflexivity.
Qed.

(** The horizontal and the vertical move of a random walk enemy do not
    interfere: calling them in either order gives the same enemy, whose
    horizontal state depends on the horizontal state before and on the
    width only, and likewise vertically. *)
Theorem randomwalk_axes_commute (g : Game) (e : RandomWalkObj) :
  RandomWalkEnemy.call_ymove g (RandomWalkEnemy.call_xmove g e)
  = RandomWalkEnemy.call_xmove g (RandomWalkEnemy.call_ymove g e) /\
  (forall (g2 : Game) (e2 : RandomWalkObj),
      screen_width g2 = screen_width g ->
      (rw_x e2, rw_xmove e2, rw_speed e2) = (rw_x e, rw_xmove e, rw_speed e) ->
      let r := fst (RandomWalkEnemy.update g e) in
      let r2 := fst (RandomWalkEnemy.update g2 e2) in
      (rw_x r2, rw_xmove r2) = (rw_x r, rw_xmove r)).
Proof.
  split.
  - rewrite !call_ymove_eq, !call_xmove_eq. reflexivity.
  - intros g2 e2 Hw Heq r r2. subst r r2.
    injection Heq as Hx Hm Hs.
    unfold RandomWalkEnemy.update. cbn [fst].
    rewrite !call_ymove_eq, !call_xmove_eq. cbv zeta.
    cbn [rw_x rw_xmove]. rewrite Hx, Hm, Hs, Hw. reflexivity.
Qed.

End Axes.

(** ** Fencing enemy: the home is safe *)

Section SafeHome.

Local Open Scope Z_scope.

Lemma fencing_call_move_size (e e' : FencingObj) :
  FencingEnemy.call_move e = Ok e' -> fe_size e' = fe_size e.
Proof.
  unfold FencingEnemy.call_move.
  destruct e as [x y sz col sp hx hy off [[ | | | ] |]]; cbn [fe_move];
    try discriminate; intros H; injection H as <-;
    unfold FencingEnemy.up, FencingEnemy.right, FencingEnemy.down,
      FencingEnemy.left; cbv zeta;
    match goal with
    | |- context [Z.ltb ?a ?b] => destruct (Z.ltb a b)
    | |- context [Z.gtb ?a ?b] => destruct (Z.gtb a b)
    end; reflexivity.
Qed.

Lemma fencing_run_size (n : nat) (e e' : FencingObj) :
  fencing_run n e = Ok e' -> fe_size e' = fe_size e.
Proof.
  revert e. induction n as [| n IH]; intros e; cbn [fencing_run].
  - intros H. now injection H as <-.
  - destruct (FencingEnemy.call_move e) as [e1 |] eqn:Hc; cbn [bind];
      [| discriminate].
    intros H. rewrite (IH _ H). exact (fencing_call_move_size _ Hc).
Qed.

(** A fencing enemy never reaches a player who is inside the home it
    patrols: if the sizes of the home and of the enemy add up to at most 120
    (they are 20 and 20 in the game), then after any sequence of updates the
    enemy does not hit a player whose position the home contains. *)
Theorem fencing_never_hits_in_home (g : Game) (size : Z) (color : string)
  (draw : Z) (gs : list Game) (p : PlayerObj) :
  home_size (home g) + size <= 120 ->
  Home.contains (home g) (pl_x p) (pl_y p) = true ->
  exists e0 e,
    FencingEnemy.create g (FencingEnemy.init g size color) draw = Ok e0 /\
    fencing_updates gs e0 = Ok e /\
    Enemy.hits_player (IZR (fe_x e)) (IZR (fe_y e)) (fe_size e) p = false.
Proof.
  intros Hsz Hin.
  set (e0 := fencing_start (FencingEnemy.init g size color) (draw mod 4)).
  assert (Hinv0 : fencing_inv e0) by apply fencing_start_inv.
  destruct (fencing_run_inv (List.length gs) Hinv0)
    as (e & Hrun & Hinv & Hx & Hy).
  exists e0, e. split; [apply fencing_create_start |].
  split; [rewrite fencing_updates_run; exact Hrun |].
  assert (Hsize : fe_size e = size).
  { rewrite (fencing_run_size _ _ Hrun). unfold e0.
    apply (fencing_start_fields (FencingEnemy.init g size color)). }
  assert (Hhx : fe_homex e = home_x (home g))
    by (rewrite Hx; apply fencing_start_home).
  assert (Hhy : fe_homey e = home_y (home g))
    by (rewrite Hy; apply fencing_start_home).
  apply contains_spec in Hin.
  apply not_true_is_false. rewrite hits_player_spec, Hsize.
  destruct Hinv as (_ & _ & Hleg). cbv zeta in Hleg.
  rewrite Hhx, Hhy in Hleg.
  apply IZR_le in Hsz. rewrite plus_IZR in Hsz.
  assert (Htrack :
    (IZR (fe_x e) - IZR (home_x (home g)) <= -60 \/
     60 <= IZR (fe_x e) - IZR (home_x (home g)) \/
     IZR (fe_y e) - IZR (home_y (home g)) <= -60 \/
     60 <= IZR (fe_y e) - IZR (home_y (home g)))%R).
  { rewrite <- !minus_IZR.
    destruct (fe_move e) as [[ | | | ] |]; [| | | | contradiction].
    - left. apply IZR_le. lia.
    - right; right; left. apply IZR_le. lia.
    - right; left. apply IZR_le. lia.
    - right; right; right. apply IZR_le. lia. }
  lra.
Qed.

(** The fencing enemy of the game and a player at the centre of the home. *)
Lemma fencing_never_hits_in_home_witness :
  exists e0 e,
    FencingEnemy.create game0 (FencingEnemy.init game0 20 "blue") 3 = Ok e0 /\
    fencing_updates (repeat game0 100) e0 = Ok e /\
    Enemy.hits_player (IZR (fe_x e)) (IZR (fe_y e)) (fe_size e)
      (mkPlayer 700 300 0 5) = false.
Proof.
  apply (@fencing_never_hits_in_home game0 20 "blue" 3 (repeat game0 100)
           (mkPlayer 700 300 0 5)).
  - rewrite game0_eq. cbn. lia.
  - rewrite game0_eq. apply contains_spec. cbn. lra.
Defined.

End SafeHome.

(** ** Spawn scheduler: when a firing returns *)

Section Registration.

Local Open Scope Z_scope.

Lemma py_index_in_range {A : Type} (l : list A) (k : Z) :
  0 <= k < Z.of_nat (List.length l) -> exists a, py_index l k = Ok a.
Proof.
  intros Hk. unfold py_index.
  rewrite (proj2 (Z.ltb_ge k 0)) by lia.
  rewrite (proj2 (Z.ltb_ge k 0)) by lia.
  destruct (nth_error l (Z.to_nat k)) as [a |] eqn:Hn; [now exists a |].
  apply nth_error_None in Hn. lia.
Qed.

Lemma construct_returns (k : Kind) (g : Game) (size : Z) (color : string)
  (d : Draws) :
  exists e, construct k g size color d = Ok e.
Proof.
  destruct k; cbn [construct]; rewrite ?randomwalk_init_eq; cbn [bind];
    eexists; reflexivity.
Qed.

Lemma enemy_create_returns (g : Game) (e : EnemyObj) (d : Draws) :
  1 <= screen_width g -> exists e', enemy_create g e d = Ok e'.
Proof.
  intros Hw. destruct e as [e | e | e | e | e]; cbn [enemy_create];
    rewrite ?randomwalk_create_eq, ?chasing_create_eq, ?fencing_create_start,
      ?blocker_create_start by exact Hw;
    cbn [bind]; eexists; reflexivity.
Qed.

(** Registration keeps the list of classes and the list of colours equally
    long, and with equally long non-empty lists in an arena of positive
    width the spawn callback returns, whichever classes are registered: it
    appends one enemy and queues itself again 500 time units later.  With
    no registered class it raises [ValueError] instead, before it has added
    an enemy or queued itself again. *)
Theorem create_enemy_returns :
  (forall (g : Game) (k : Kind) (c : string),
      List.length (enemies_color g) = List.length (enemies_factory g) ->
      List.length (enemies_color (add_enemy_factory g k c))
      = List.length (enemies_factory (add_enemy_factory g k c)) /\
      enemies_factory (add_enemy_factory g k c) <> [])
  /\
  (forall (g : Game) (d : Draws),
      List.length (enemies_color g) = List.length (enemies_factory g) ->
      enemies_factory g <> [] -> 1 <= screen_width g ->
      exists e, EnemyGenerator.create_enemy g d = Ok (spawned g e))
  /\
  (forall (g : Game) (d : Draws),
      enemies_factory g = [] ->
      EnemyGenerator.create_enemy g d = Raise ValueError).
Proof.
  split; [| split].
  - intros g k c Hlen. cbn [add_enemy_factory set_factories enemies_color
                            enemies_factory].
    rewrite !length_app, Hlen. split; [reflexivity |].
    destruct (enemies_factory g); discriminate.
  - intros g d Hlen Hne Hw. unfold EnemyGenerator.create_enemy.
    set (n := Z.of_nat (List.length (enemies_factory g))).
    assert (Hn : 1 <= n).
    { unfold n. destruct (enemies_factory g); [contradiction | cbn; lia]. }
    rewrite (proj1 (@randint_from_0 n (d_index d) Hn)). cbn [bind].
    pose proof (Z.mod_pos_bound (d_index d) n ltac:(lia)) as Hk.
    destruct (@py_index_in_range _ (enemies_factory g) (d_index d mod n) Hk)
      as (f & Hf).
    destruct (@py_index_in_range _ (enemies_color g) (d_index d mod n)
                ltac:(rewrite Hlen; exact Hk)) as (c & Hc).
    rewrite Hf, Hc. cbn [bind].
    destruct (construct_returns f g 20 c d) as (e & He).
    rewrite He. cbn [bind]. unfold add_element.
    destruct (@enemy_create_returns g (enemy_set_y (enemy_set_x e 100) 100) d Hw)
      as (e' & He').
    rewrite He'. cbn [bind]. exists e'. reflexivity.
  - intros g d Hf. unfold EnemyGenerator.create_enemy. rewrite Hf.
    reflexivity.
Qed.

End Registration.
